(** * Knowledge-base embedding index of server.js (AIDLEX.AE v2)

    A shallow embedding of the knowledge-base part of [server.js]:
    the document loader ([readAllFiles], [parseFrontJSON], [splitENAR],
    [extractSection]), the chunker ([chunk]), the index builder ([indexKB])
    as a coroutine over the two shared arrays [kbFiles] and [kbChunks],
    the similarity function ([cosine]) and the search route
    ([POST /api/kb/search]).

    Modelling choices:
    - a JavaScript string is its sequence of UTF-16 code units ([list N]);
    - JavaScript numbers used as vector components and scores are exact
      reals ([R]); lengths, offsets and chunk parameters are integers ([Z]);
    - [JSON.parse] and [JSON.stringify] are parameters of the development
      (Section variables), so every theorem holds for any implementation;
    - an [await] is a suspension point: the builder is a step function that
      stops at each [await openaiEmbed(...)] and is resumed with the
      Embedding Client's answer, while other requests may run in between. *)

From Stdlib Require Import List String Ascii ZArith NArith Lia Bool.
From Stdlib Require Import Reals Lra Sorted Permutation.
From Stdlib Require Decimal DecimalNat.
Import ListNotations.
Set Warnings "-register-all".

(* ================================================================== *)
(** ** JavaScript strings *)

Definition jstr := list N.

(** A literal written with ASCII characters, read as code units. *)
Definition js (s : string) : jstr :=
  map N_of_ascii (list_ascii_of_string s).

Fixpoint jeq (a b : jstr) : bool :=
  match a, b with
  | [], [] => true
  | x :: a', y :: b' => N.eqb x y && jeq a' b'
  | _, _ => false
  end.

Lemma jeq_spec : forall a b, jeq a b = true <-> a = b.
Proof.
  induction a as [|x a IH]; destruct b as [|y b]; simpl;
    try (split; congruence).
  rewrite andb_true_iff, N.eqb_eq, IH. split.
  - intros [-> ->]; reflexivity.
  - intros H; inversion H; auto.
Qed.

Lemma jeq_refl : forall a, jeq a a = true.
Proof. intros a; apply jeq_spec; reflexivity. Qed.

(** [String.prototype.slice(b, e)]: negative positions count from the end,
    positions are clamped to [0, length], an empty slice when [e <= b]. *)
Definition rel_index (len k : Z) : Z :=
  if (k <? 0)%Z then Z.max (len + k) 0 else Z.min k len.

Definition slice (s : jstr) (b e : Z) : jstr :=
  let len := Z.of_nat (List.length s) in
  let from := rel_index len b in
  let to_ := rel_index len e in
  firstn (Z.to_nat (to_ - from)) (skipn (Z.to_nat from) s).

(** JavaScript white space and line terminators (the code units that
    [String.prototype.trim] and the regular-expression class [\s] remove). *)
Definition is_ws (c : N) : bool :=
  existsb (N.eqb c) [9; 10; 11; 12; 13; 32; 160; 5760; 8232; 8233; 8239; 8287;
                      12288; 65279]%N
  || ((8192 <=? c)%N && (c <=? 8202)%N).

Fixpoint trim_start (s : jstr) : jstr :=
  match s with
  | c :: s' => if is_ws c then trim_start s' else s
  | [] => []
  end.

Definition trim (s : jstr) : jstr := rev (trim_start (rev (trim_start s))).

Fixpoint starts_with (s p : jstr) : bool :=
  match p, s with
  | [], _ => true
  | x :: p', y :: s' => N.eqb x y && starts_with s' p'
  | _, _ => false
  end.

Definition ends_with (s p : jstr) : bool := starts_with (rev s) (rev p).

(** [String.prototype.indexOf(p)]: the first position of [p], or -1. *)
Fixpoint index_of_from (s p : jstr) (k : Z) : Z :=
  if starts_with s p then k
  else match s with
       | [] => (-1)%Z
       | _ :: s' => index_of_from s' p (k + 1)
       end.

Definition index_of (s p : jstr) : Z := index_of_from s p 0.

Definition includes (s p : jstr) : bool := (0 <=? index_of s p)%Z.

(** [String.prototype.split(sep)] for a non-empty separator. *)
Fixpoint split_acc (fuel : nat) (s sep cur : jstr) : list jstr :=
  match fuel with
  | O => [rev cur ++ s]
  | S f =>
      match s with
      | [] => [rev cur]
      | c :: s' =>
          if starts_with s sep then rev cur :: split_acc f (skipn (List.length sep) s) sep []
          else split_acc f s' sep (c :: cur)
      end
  end.

Definition str_split (s sep : jstr) : list jstr := split_acc (List.length s) s sep [].

(* ================================================================== *)
(** ** [chunk(text, size, overlap)] (server.js lines 185-189)

<<
function chunk(text, size=2500, overlap=250) {
  const out = [];
  let i=0; while (i<text.length) { out.push(text.slice(i, i+size)); i += (size - overlap); }
  return out;
}
>>
    The [while] loop runs on a fuel counter: [None] means the loop was still
    running when the fuel ran out. *)

Fixpoint chunk_loop (fuel : nat) (text : jstr) (size overlap i : Z)
    (out : list jstr) : option (list jstr) :=
  if (i <? Z.of_nat (List.length text))%Z then
    match fuel with
    | O => None
    | S f => chunk_loop f text size overlap (i + (size - overlap))%Z
               (out ++ [slice text i (i + size)])
    end
  else Some out.

(** With a positive step the loop ends within [length text] rounds
    ([chunk_terminates] below), so this fuel never runs out there. *)
Definition chunk (text : jstr) (size overlap : Z) : option (list jstr) :=
  chunk_loop (S (List.length text)) text size overlap 0 [].

(** The window that starts at offset [k * (size - overlap)]. *)
Definition window_start (step : Z) (k : nat) : Z := (Z.of_nat k * step)%Z.

Definition window (text : jstr) (size step : Z) (k : nat) : jstr :=
  slice text (window_start step k) (window_start step k + size).

(** Number of windows: the least [n] with [n * step >= length text]. *)
Definition window_count (len step : Z) : nat := Z.to_nat ((len + step - 1) / step).

Example chunk_example :
  chunk (js "abcdefg") 3 1 = Some [js "abc"; js "cde"; js "efg"; js "g"].
Proof. reflexivity. Qed.

Example chunk_empty_example : chunk [] 2500 250 = Some [].
Proof. reflexivity. Qed.

Section ChunkWindows.
Variables (text : jstr) (size overlap : Z).
Hypothesis Hlt : (overlap < size)%Z.

Local Abbreviation len := (Z.of_nat (List.length text)).
Local Abbreviation step := (size - overlap)%Z.

Lemma window_count_spec : forall k,
  (window_start step k < len)%Z <-> (k < window_count len step)%nat.
Proof.
  intros k. unfold window_count, window_start.
  assert (Hstep : (0 < step)%Z) by lia.
  assert (Hlen : (0 <= len)%Z) by lia.
  pose proof (Z.div_mod (len + step - 1) step ltac:(lia)) as Hdm.
  pose proof (Z.mod_pos_bound (len + step - 1) step Hstep) as Hmod.
  set (q := ((len + step - 1) / step)%Z) in *.
  set (r := ((len + step - 1) mod step)%Z) in *.
  assert (Hq : (0 <= q)%Z) by (apply Z.div_pos; lia).
  rewrite Nat2Z.inj_lt, Z2Nat.id by exact Hq.
  split; intros H.
  - destruct (Z_lt_le_dec (Z.of_nat k) q) as [Hk | Hk]; [exact Hk|]. nia.
  - nia.
Qed.

Lemma chunk_loop_windows : forall r j fuel out,
  (j + r)%nat = window_count len step -> (r <= fuel)%nat ->
  chunk_loop fuel text size overlap (window_start step j) out
  = Some (out ++ map (window text size step) (seq j r)).
Proof.
  induction r as [|r IH]; intros j fuel out Hj Hfuel.
  - destruct fuel; simpl;
      (destruct (Z.ltb_spec (window_start step j) len) as [Hin | _];
       [apply window_count_spec in Hin; lia | now rewrite app_nil_r]).
  - destruct fuel as [|fuel]; [lia|]. simpl.
    destruct (Z.ltb_spec (window_start step j) len) as [_ | Hout].
    + replace (window_start step j + (size - overlap))%Z
        with (window_start step (S j)) by (unfold window_start; lia).
      rewrite IH by lia. rewrite <- app_assoc. reflexivity.
    + exfalso. assert (Hin : (j < window_count len step)%nat) by lia.
      apply window_count_spec in Hin. lia.
Qed.

Lemma window_count_le_length : (window_count len step <= List.length text)%nat.
Proof.
  destruct (Nat.le_gt_cases (window_count len step) (List.length text)) as [H|H];
    [exact H|].
  apply window_count_spec in H. unfold window_start in H. nia.
Qed.
End ChunkWindows.

(** [`${idx}`] for a non-negative integer index: its decimal digits. *)
Fixpoint uint_to_js (d : Decimal.uint) : jstr :=
  match d with
  | Decimal.Nil => []
  | Decimal.D0 d => 48%N :: uint_to_js d
  | Decimal.D1 d => 49%N :: uint_to_js d
  | Decimal.D2 d => 50%N :: uint_to_js d
  | Decimal.D3 d => 51%N :: uint_to_js d
  | Decimal.D4 d => 52%N :: uint_to_js d
  | Decimal.D5 d => 53%N :: uint_to_js d
  | Decimal.D6 d => 54%N :: uint_to_js d
  | Decimal.D7 d => 55%N :: uint_to_js d
  | Decimal.D8 d => 56%N :: uint_to_js d
  | Decimal.D9 d => 57%N :: uint_to_js d
  end.

Definition nat_to_js (n : nat) : jstr := uint_to_js (Nat.to_uint n).

(* ================================================================== *)
(** ** Documents, file system and JSON values *)

(** JSON values; numbers are exact reals. *)
Inductive json : Type :=
| JNull
| JBool (b : bool)
| JNum (x : R)
| JStr (s : jstr)
| JArr (l : list json)
| JObj (fields : list (jstr * json)).

(** JavaScript truthiness of a parsed JSON value. *)
Definition truthy (j : json) : bool :=
  match j with
  | JNull => false
  | JBool b => b
  | JNum x => if Req_dec_T x 0 then false else true
  | JStr s => match s with [] => false | _ => true end
  | JArr _ | JObj _ => true
  end.

(** Property access [o.k] on a parsed object ([None] is [undefined]);
    a later duplicate key wins, as with [JSON.parse]. *)
Definition get (k : jstr) (j : json) : option json :=
  match j with
  | JObj fields =>
      fold_left (fun acc '(k', v) => if jeq k k' then Some v else acc) fields None
  | _ => None
  end.

(** A directory tree as [fs.readdirSync] lists it, entries in listing order. *)
Inductive node : Type :=
| FileN (name content : jstr)
| DirN (name : jstr) (entries : list node).

Definition path_join (dir e : jstr) : jstr := dir ++ js "/" ++ e.

(** [readAllFiles(dir)] (lines 154-164), returning each [.md] path together
    with the text [fs.readFileSync(fp, 'utf-8')] reads there (the tree does
    not change while a build runs). A missing directory gives no files. *)
Fixpoint files_under (dir : jstr) (n : node) : list (jstr * jstr) :=
  match n with
  | FileN e c => if ends_with e (js ".md") then [(path_join dir e, c)] else []
  | DirN e entries =>
      (fix go (l : list node) : list (jstr * jstr) :=
         match l with
         | [] => []
         | x :: l' => files_under (path_join dir e) x ++ go l'
         end) entries
  end.

Definition readAllFiles (dir : jstr) (listing : option (list node)) : list (jstr * jstr) :=
  match listing with
  | None => []
  | Some entries => flat_map (files_under dir) entries
  end.

(** [path.basename(fp, '.md')]: the last path segment, without the [.md]
    suffix unless that would leave it empty. *)
Fixpoint after_last_slash (s acc : jstr) : jstr :=
  match s with
  | [] => rev acc
  | c :: s' => if N.eqb c 47 then after_last_slash s' [] else after_last_slash s' (c :: acc)
  end.

Definition basename_md (fp : jstr) : jstr :=
  let b := after_last_slash fp [] in
  if ends_with b (js ".md") && negb (jeq b (js ".md"))
  then firstn (List.length b - 3) b else b.

(** Depth scan of [parseFrontJSON]: the position just after the brace that
    closes the first one, or -1. *)
Fixpoint brace_end (s : jstr) (i depth : Z) : Z :=
  match s with
  | [] => (-1)%Z
  | c :: s' =>
      let depth1 := if N.eqb c 123 then (depth + 1)%Z else depth in
      if N.eqb c 125 then
        let depth2 := (depth1 - 1)%Z in
        if (depth2 =? 0)%Z then (i + 1)%Z else brace_end s' (i + 1) depth2
      else brace_end s' (i + 1) depth1
  end.

(** The separator of [splitENAR]: ['\n— — —\n'] (U+2014 em dashes). *)
Definition SEP : jstr := [10; 8212; 32; 8212; 32; 8212; 10]%N.

(** The regular-expression replacement [replace(/^\s*[\r\n]+/, '')]: the
    match ends just after the last [\r] or [\n] of the leading white space. *)
Fixpoint last_nl_in_ws (s : jstr) (k : nat) (acc : option nat) : option nat :=
  match s with
  | c :: s' =>
      if is_ws c
      then last_nl_in_ws s' (S k) (if N.eqb c 10 || N.eqb c 13 then Some k else acc)
      else acc
  | [] => acc
  end.

Definition replace_leading_nl (s : jstr) : jstr :=
  match last_nl_in_ws s 0 None with
  | Some p => skipn (S p) s
  | None => s
  end.

(** [extractSection(md, title)] (lines 190-197). *)
Definition extractSection (md title : jstr) : jstr :=
  let idx := index_of md title in
  if (idx <? 0)%Z then [] else
  let after := slice md (idx + Z.of_nat (List.length title)) (Z.of_nat (List.length md)) in
  let next := index_of after (10%N :: js "**") in
  let section := if (0 <=? next)%Z then slice after 0 next else after in
  let t := replace_leading_nl (trim section) in
  slice t 0 600.

(** [splitENAR(body)] (lines 180-184). The one-piece case cannot arise
    when the separator occurs. *)
Definition splitENAR (body : jstr) : jstr * jstr :=
  let parts := if includes body SEP then str_split body SEP else [body; []] in
  match parts with
  | en :: ar :: _ => (trim en, trim ar)
  | [en] => (trim en, [])
  | [] => ([], [])
  end.

Definition vec := list R.

(** The file record pushed on [kbFiles] (lines 207-212). *)
Record FileRec : Type := {
  fr_id : jstr; fr_file : jstr; fr_meta : json;
  fr_summaryEN : jstr; fr_summaryAR : jstr;
  fr_bodyEN : jstr; fr_bodyAR : jstr }.

(** The chunk record pushed on [kbChunks] (line 218); [ch_text] is
    [parts[idx]], [undefined] past the end of [parts]. *)
Record ChunkRec : Type := {
  ch_id : jstr; ch_fileId : jstr; ch_text : option jstr;
  ch_meta : json; ch_embedding : vec }.

(** The two shared arrays [kbFiles] and [kbChunks] (lines 151-152). *)
Record KB : Type := { kbFiles : list FileRec; kbChunks : list ChunkRec }.

(** The chunk records of one file, [embeds.forEach((emb, idx) => ...)]. *)
Fixpoint chunk_records (id : jstr) (meta : json) (parts : list jstr)
    (embeds : list vec) (idx : nat) : list ChunkRec :=
  match embeds with
  | [] => []
  | emb :: rest =>
      {| ch_id := id ++ js "#" ++ nat_to_js idx; ch_fileId := id;
         ch_text := nth_error parts idx; ch_meta := meta; ch_embedding := emb |}
      :: chunk_records id meta parts rest (S idx)
  end.

(** A build suspended at [await openaiEmbed(parts)]: what it still needs
    when it resumes. *)
Record Pending : Type := {
  p_id : jstr; p_meta : json; p_parts : list jstr; p_rest : list (jstr * jstr) }.

(** State of a running [indexKB()] call after a synchronous segment. *)
Inductive Task : Type :=
| Awaiting (p : Pending)   (** suspended on an embedding call it has issued *)
| Resolved                 (** the promise resolved: the loop finished *)
| Rejected.                (** the embedding call threw: the error propagates *)

(** The Embedding Client's answer: the vectors, or [None] when
    [openaiEmbed] throws (non-OK HTTP status, network error). *)
Definition EmbedAnswer := option (list vec).

(* ================================================================== *)
(** ** The index builder [indexKB()] (lines 198-221) *)

(** The two JSON functions of the runtime: [JSON.parse] ([None] when it
    throws) and [JSON.stringify]. *)
Class JSONImpl : Type := {
  JSON_parse : jstr -> option json;
  JSON_stringify : json -> jstr }.

Section Builder.
Context `{JSONImpl}.

(** [parseFrontJSON(s)] (lines 165-179): [(meta, body)], [None] for [null]. *)
Definition parseFrontJSON (s0 : jstr) : option json * jstr :=
  let s := trim s0 in
  if negb (starts_with s (js "{")) then (None, s) else
  let end_ := brace_end s 0 0 in
  if (end_ <? 0)%Z then (None, s) else
  match JSON_parse (slice s 0 end_) with
  | Some meta => (Some meta, trim (slice s end_ (Z.of_nat (List.length s))))
  | None => (None, s)
  end.

(** [`${JSON.stringify(meta)}\n${en}\n${ar}`] *)
Definition textForEmbed (meta : json) (en ar : jstr) : jstr :=
  JSON_stringify meta ++ [10%N] ++ en ++ [10%N] ++ ar.

(** [chunk(textForEmbed, 2500, 250)]; the step is positive, so [chunk]
    always returns its windows ([chunk_terminates]). *)
Definition parts_of (t : jstr) : list jstr :=
  match chunk t 2500 250 with Some p => p | None => [] end.

Definition fileRec_of (fp : jstr) (meta : json) (body : jstr) : FileRec :=
  let '(en, ar) := splitENAR body in
  {| fr_id := basename_md fp; fr_file := fp; fr_meta := meta;
     fr_summaryEN := extractSection en (js "**Summary**");
     fr_summaryAR := extractSection ar (js "**Summary**");
     fr_bodyEN := en; fr_bodyAR := ar |}.

(** What the build needs when it resumes after [openaiEmbed(parts)]. *)
Definition pending_of (fr : FileRec) (m : json) (rest : list (jstr * jstr)) : Pending :=
  {| p_id := fr_id fr; p_meta := m;
     p_parts := parts_of (textForEmbed m (fr_bodyEN fr) (fr_bodyAR fr));
     p_rest := rest |}.

(** The body of [for (const fp of files)] up to the next [await]: files
    without metadata are skipped ([continue]); the first file with
    metadata has its record pushed on [kbFiles], and the build suspends
    on [openaiEmbed(parts)]. *)
Fixpoint index_loop (kb : KB) (files : list (jstr * jstr)) : KB * Task :=
  match files with
  | [] => (kb, Resolved)
  | (fp, raw) :: rest =>
      let '(meta, body) := parseFrontJSON raw in
      match meta with
      | Some m =>
          if truthy m then
            let fr := fileRec_of fp m body in
            ({| kbFiles := kbFiles kb ++ [fr]; kbChunks := kbChunks kb |},
             Awaiting (pending_of fr m rest))
          else index_loop kb rest
      | None => index_loop kb rest
      end
  end.

(** [indexKB()] up to its first [await]: [kbFiles.length = 0;
    kbChunks.length = 0;] then the loop over [readAllFiles(KB_DIR)]. *)
Definition start_indexKB (kb : KB) (files : list (jstr * jstr)) : KB * Task :=
  index_loop {| kbFiles := []; kbChunks := [] |} files.

(** Resumption after [await openaiEmbed(parts)]: a rejection propagates
    out of [indexKB]; otherwise the chunks are pushed on [kbChunks] and
    the loop continues. *)
Definition resume (kb : KB) (p : Pending) (ans : EmbedAnswer) : KB * Task :=
  match ans with
  | None => (kb, Rejected)
  | Some embeds =>
      index_loop {| kbFiles := kbFiles kb;
                    kbChunks := kbChunks kb ++ chunk_records (p_id p) (p_meta p) (p_parts p) embeds 0 |}
                 (p_rest p)
  end.

(** Driving one build with the successive answers of the Embedding
    Client: the states of the shared arrays at each suspension point (what
    a concurrent reader can observe), and the final state and outcome. *)
Fixpoint drive (answers : list EmbedAnswer) (kb : KB) (t : Task)
    : list KB * (KB * Task) :=
  match t with
  | Awaiting p =>
      match answers with
      | [] => ([kb], (kb, t))
      | a :: answers' =>
          let '(kb', t') := resume kb p a in
          let '(obs, fin) := drive answers' kb' t' in
          (kb :: obs, fin)
      end
  | _ => ([], (kb, t))
  end.

(** A whole rebuild run alone, from the current state [kb]. *)
Definition rebuild (kb : KB) (files : list (jstr * jstr)) (answers : list EmbedAnswer)
    : list KB * (KB * Task) :=
  let '(kb1, t) := start_indexKB kb files in drive answers kb1 t.

(** The files the loop indexes: those whose front matter parses to a
    truthy value, with their metadata and body. *)
Fixpoint indexed (files : list (jstr * jstr)) : list (jstr * json * jstr) :=
  match files with
  | [] => []
  | (fp, raw) :: rest =>
      let '(meta, body) := parseFrontJSON raw in
      match meta with
      | Some m => if truthy m then (fp, m, body) :: indexed rest else indexed rest
      | None => indexed rest
      end
  end.

(** ** Several requests at once: the event loop's view

    The shared arrays, the builds suspended on an embedding call, and the
    number of embedding calls issued so far. *)
Record World : Type := {
  w_kb : KB; w_builds : list Pending; w_embed_calls : nat }.

Definition after_segment (w : World) (builds : list Pending) (r : KB * Task) : World :=
  let '(kb', t) := r in
  match t with
  | Awaiting p => {| w_kb := kb'; w_builds := p :: builds; w_embed_calls := S (w_embed_calls w) |}
  | _ => {| w_kb := kb'; w_builds := builds; w_embed_calls := w_embed_calls w |}
  end.

(** [POST /api/kb/index] (lines 670-676): with the right admin key it
    calls [indexKB()], which runs until its first [await]. *)
Definition kb_index_route (ADMIN_KEY key : jstr) (files : list (jstr * jstr)) (w : World) : World :=
  if jeq key ADMIN_KEY
  then after_segment w (w_builds w) (start_indexKB (w_kb w) files)
  else w.

(** The Embedding Client answers the [i]-th suspended build. *)
Definition answer_build (i : nat) (ans : EmbedAnswer) (w : World) : World :=
  match nth_error (w_builds w) i with
  | Some p =>
      after_segment w (firstn i (w_builds w) ++ skipn (S i) (w_builds w)) (resume (w_kb w) p ans)
  | None => w
  end.
End Builder.

(* ================================================================== *)
(** ** [cosine(a, b)] (lines 70-74)

<<
function cosine(a, b) {
  let dot=0, na=0, nb=0;
  for (let i=0; i<a.length && i<b.length; i++) { const x=a[i], y=b[i]; dot+=x*y; na+=x*x; nb+=y*y; }
  return dot / ((Math.sqrt(na)*Math.sqrt(nb)) || 1);
}
>> *)

(** The arithmetic is over the reals, not IEEE doubles: the facts proved
    here about [cosine] are the ones rounding does not affect (a zero
    vector, symmetry, the components read), not bounds on its value,
    which rounding can push past [1]. *)

Local Open Scope R_scope.

Fixpoint cosine_loop (a b : vec) (dot na nb : R) : R * R * R :=
  match a, b with
  | x :: a', y :: b' => cosine_loop a' b' (dot + x * y) (na + x * x) (nb + y * y)
  | _, _ => (dot, na, nb)
  end.

(** [d || 1] on a number: [1] when [d] is falsy ([0]). *)
Definition or_one (d : R) : R := if Req_dec_T d 0 then 1 else d.

Definition cosine_divisor (a b : vec) : R :=
  let '(_, na, nb) := cosine_loop a b 0 0 0 in or_one (sqrt na * sqrt nb).

Definition cosine (a b : vec) : R :=
  let '(dot, na, nb) := cosine_loop a b 0 0 0 in dot / or_one (sqrt na * sqrt nb).

(** The Euclidean magnitude of a whole vector. *)
Definition magnitude (a : vec) : R := sqrt (fold_right (fun x acc => x * x + acc) 0 a).

Local Close Scope R_scope.

(* ================================================================== *)
(** ** [POST /api/kb/search] (lines 645-667) *)

(** One entry of [items] (lines 658-662); [None] is [undefined]. *)
Record Item : Type := {
  it_id : jstr; it_title : option json; it_jurisdiction : option json;
  it_version : option json; it_as_of : option json;
  it_summaryEN : jstr; it_summaryAR : jstr; it_tags : option json }.

Definition item_of (f : FileRec) : Item :=
  {| it_id := fr_id f; it_title := get (js "title") (fr_meta f);
     it_jurisdiction := get (js "jurisdiction") (fr_meta f);
     it_version := get (js "version") (fr_meta f);
     it_as_of := get (js "as_of") (fr_meta f);
     it_summaryEN := fr_summaryEN f; it_summaryAR := fr_summaryAR f;
     it_tags := get (js "tags") (fr_meta f) |}.

(** [{ ...ch, score: cosine(qEmb, ch.embedding) }] *)
Record Scored : Type := { sc_chunk : ChunkRec; sc_score : R }.

(** [.sort((a,b) => b.score - a.score)]: [Array.prototype.sort] is stable,
    so with this consistent comparator its result is the stable sort by
    decreasing score, here an insertion sort that keeps an element ahead
    of the later elements of equal score. *)
Fixpoint insert_desc (x : Scored) (l : list Scored) : list Scored :=
  match l with
  | [] => [x]
  | y :: l' => if Rlt_dec (sc_score x) (sc_score y) then y :: insert_desc x l' else x :: l
  end.

Fixpoint sort_desc (l : list Scored) : list Scored :=
  match l with
  | [] => []
  | x :: l' => insert_desc x (sort_desc l')
  end.

Definition find_file (files : list FileRec) (id : jstr) : option FileRec :=
  find (fun f => jeq (fr_id f) id) files.

(** The [for (const sc of scored)] loop with the [seen] set (lines 652-664). *)
Fixpoint collect (files : list FileRec) (scored : list Scored) (seen : list jstr)
    (items : list Item) : list Item :=
  match scored with
  | [] => items
  | sc :: rest =>
      let fid := ch_fileId (sc_chunk sc) in
      if existsb (jeq fid) seen then collect files rest seen items
      else
        let items' := match find_file files fid with
                      | Some f => items ++ [item_of f]
                      | None => items
                      end in
        if (5 <=? List.length items')%nat then items'
        else collect files rest (fid :: seen) items'
  end.

Definition scored_chunks (kb : KB) (qEmb : vec) : list Scored :=
  map (fun ch => {| sc_chunk := ch; sc_score := cosine qEmb (ch_embedding ch) |}) (kbChunks kb).

(** Lines 650-664, run synchronously on the arrays as they are when the
    query embedding arrives. *)
Definition search_items (kb : KB) (qEmb : vec) : list Item :=
  collect (kbFiles kb) (firstn 20 (sort_desc (scored_chunks kb qEmb))) [] [].

Inductive Response : Type :=
| RItems (items : list Item)   (** [res.json({ items })] *)
| RError.                       (** [res.status(500)] *)

(** The handler as a program that may suspend on the Embedding Client:
    [SEmbed texts k] calls [openaiEmbed(texts)] and continues with [k]
    applied to the answer and to the shared arrays as they are then. *)
Inductive SearchProg : Type :=
| SRet (r : Response)
| SEmbed (texts : list jstr) (k : EmbedAnswer -> KB -> Response).

(** The handler, for the text [String(req.body?.q || '')]. An empty answer
    leaves [qEmb] undefined, and [cosine] then throws on the first chunk. *)
Definition kb_search_route (q0 : jstr) : SearchProg :=
  let q := trim q0 in
  match q with
  | [] => SRet (RItems [])
  | _ =>
      SEmbed [q] (fun ans kb =>
        match ans with
        | None => RError
        | Some [] => match kbChunks kb with [] => RItems [] | _ => RError end
        | Some (qEmb :: _) => RItems (search_items kb qEmb)
        end)
  end.

Definition run_search (p : SearchProg) (ans : EmbedAnswer) (kb : KB) : Response :=
  match p with
  | SRet r => r
  | SEmbed _ k => k ans kb
  end.

(* ================================================================== *)
(** ** Cache Store *)

Module CacheStore.

(** Modelled from the spec: the Cache Store, whose code (the cache file
    and the version constant of [lib/kbVersion.js] that the repository's
    test [kb.spec.js] imports) is not in [server.js]. Spec 3 and 4.4:
    an index generation is its file records, chunk records, version
    stamp and build time; [persist(generation)] writes the document
    [{version, generatedAt, files: [...], chunks: [...]}] (the layout of
    the test's payload), and [hydrate()] reads it back, treating as
    absent a payload whose version stamp differs from the expected one
    or that does not decode. The durable file is modelled by the JSON
    value it holds. *)
Record Generation : Type := {
  g_files : list FileRec; g_chunks : list ChunkRec;
  g_version : R; g_builtAt : R }.

Definition enc_file (f : FileRec) : json :=
  JObj [(js "id", JStr (fr_id f)); (js "file", JStr (fr_file f));
        (js "meta", fr_meta f);
        (js "summaryEN", JStr (fr_summaryEN f)); (js "summaryAR", JStr (fr_summaryAR f));
        (js "bodyEN", JStr (fr_bodyEN f)); (js "bodyAR", JStr (fr_bodyAR f))].

(** [JSON.stringify] leaves out a [text] that is [undefined]. *)
Definition enc_chunk (c : ChunkRec) : json :=
  JObj ([(js "id", JStr (ch_id c)); (js "fileId", JStr (ch_fileId c))]
        ++ match ch_text c with Some t => [(js "text", JStr t)] | None => [] end
        ++ [(js "meta", ch_meta c); (js "embedding", JArr (map JNum (ch_embedding c)))]).

Definition persist (g : Generation) : json :=
  JObj [(js "version", JNum (g_version g)); (js "generatedAt", JNum (g_builtAt g));
        (js "files", JArr (map enc_file (g_files g)));
        (js "chunks", JArr (map enc_chunk (g_chunks g)))].

Definition get_str (k : jstr) (j : json) : option jstr :=
  match get k j with Some (JStr s) => Some s | _ => None end.

Definition get_num (k : jstr) (j : json) : option R :=
  match get k j with Some (JNum x) => Some x | _ => None end.

Definition get_arr (k : jstr) (j : json) : option (list json) :=
  match get k j with Some (JArr l) => Some l | _ => None end.

Fixpoint traverse {A : Type} (f : json -> option A) (l : list json) : option (list A) :=
  match l with
  | [] => Some []
  | x :: l' =>
      match f x, traverse f l' with
      | Some a, Some r => Some (a :: r)
      | _, _ => None
      end
  end.

Definition dec_num (j : json) : option R :=
  match j with JNum x => Some x | _ => None end.

Definition dec_file (j : json) : option FileRec :=
  match get_str (js "id") j, get_str (js "file") j, get (js "meta") j,
        get_str (js "summaryEN") j, get_str (js "summaryAR") j,
        get_str (js "bodyEN") j, get_str (js "bodyAR") j with
  | Some id, Some fp, Some meta, Some sEN, Some sAR, Some bEN, Some bAR =>
      Some {| fr_id := id; fr_file := fp; fr_meta := meta;
              fr_summaryEN := sEN; fr_summaryAR := sAR;
              fr_bodyEN := bEN; fr_bodyAR := bAR |}
  | _, _, _, _, _, _, _ => None
  end.

Definition dec_text (j : json) : option (option jstr) :=
  match get (js "text") j with
  | None => Some None
  | Some (JStr t) => Some (Some t)
  | Some _ => None
  end.

Definition dec_chunk (j : json) : option ChunkRec :=
  match get_str (js "id") j, get_str (js "fileId") j, dec_text j, get (js "meta") j,
        option_map (traverse dec_num) (get_arr (js "embedding") j) with
  | Some id, Some fid, Some text, Some meta, Some (Some emb) =>
      Some {| ch_id := id; ch_fileId := fid; ch_text := text;
              ch_meta := meta; ch_embedding := emb |}
  | _, _, _, _, _ => None
  end.

(** [hydrate()] against the expected version stamp; [None] is absent,
    also when no cache file exists. *)
Definition hydrate (expected : R) (payload : option json) : option Generation :=
  match payload with
  | None => None
  | Some j =>
      match get_num (js "version") j with
      | Some v =>
          if Req_dec_T v expected then
            match get_num (js "generatedAt") j,
                  option_map (traverse dec_file) (get_arr (js "files") j),
                  option_map (traverse dec_chunk) (get_arr (js "chunks") j) with
            | Some t, Some (Some fs), Some (Some cs) =>
                Some {| g_files := fs; g_chunks := cs; g_version := v; g_builtAt := t |}
            | _, _, _ => None
            end
          else None
      | None => None
      end
  end.

Lemma dec_file_enc : forall f, dec_file (enc_file f) = Some f.
Proof. intros []; reflexivity. Qed.

Lemma traverse_dec_num : forall e, traverse dec_num (map JNum e) = Some e.
Proof. induction e as [|x e IH]; simpl; [reflexivity | now rewrite IH]. Qed.

Lemma dec_chunk_enc : forall c, dec_chunk (enc_chunk c) = Some c.
Proof.
  intros [id fid [t|] meta emb]; unfold dec_chunk; cbn;
    rewrite traverse_dec_num; reflexivity.
Qed.

Lemma traverse_map {A : Type} (enc : A -> json) (dec : json -> option A) :
  (forall a, dec (enc a) = Some a) -> forall l, traverse dec (map enc l) = Some l.
Proof. intros H l; induction l as [|a l IH]; simpl; [reflexivity | now rewrite H, IH]. Qed.

End CacheStore.

(* ================================================================== *)
(** ** Facts about one build *)

Section BuilderFacts.
Context `{JSONImpl}.

(** An indexed document [(fp, meta, body)] as [indexed] lists it. *)
Definition doc_rec (d : jstr * json * jstr) : FileRec :=
  let '(fp, m, body) := d in fileRec_of fp m body.

Definition doc_pending (d : jstr * json * jstr) (rest : list (jstr * jstr)) : Pending :=
  let '(fp, m, body) := d in pending_of (fileRec_of fp m body) m rest.

(** The chunk records of document [d] when the Embedding Client returns
    [embeds] for it. *)
Definition doc_chunks (d : jstr * json * jstr) (embeds : list vec) : list ChunkRec :=
  let p := doc_pending d [] in chunk_records (p_id p) (p_meta p) (p_parts p) embeds 0.

Fixpoint zip_chunks (ds : list (jstr * json * jstr)) (es : list (list vec)) : list (list ChunkRec) :=
  match ds, es with
  | d :: ds', e :: es' => doc_chunks d e :: zip_chunks ds' es'
  | _, _ => []
  end.

(** The arrays once the records of the first [k + 1] indexed documents
    and the chunks of the first [k] are pushed. *)
Definition prefix_state (ds : list (jstr * json * jstr)) (es : list (list vec)) (k : nat) : KB :=
  {| kbFiles := map doc_rec (firstn (S k) ds);
     kbChunks := List.concat (firstn k (zip_chunks ds es)) |}.

(** The arrays at the end of a build that went through. *)
Definition built_state (ds : list (jstr * json * jstr)) (es : list (list vec)) : KB :=
  {| kbFiles := map doc_rec ds; kbChunks := List.concat (zip_chunks ds es) |}.

Lemma doc_pending_chunks : forall d rest embeds,
  chunk_records (p_id (doc_pending d rest)) (p_meta (doc_pending d rest))
                (p_parts (doc_pending d rest)) embeds 0 = doc_chunks d embeds.
Proof. intros [[fp m] body] rest embeds; reflexivity. Qed.

Lemma doc_pending_rest : forall d rest, p_rest (doc_pending d rest) = rest.
Proof. intros [[fp m] body] rest; reflexivity. Qed.

Lemma index_loop_spec : forall files kb,
  (indexed files = [] /\ index_loop kb files = (kb, Resolved)) \/
  (exists d rest, indexed files = d :: indexed rest /\
     index_loop kb files =
       ({| kbFiles := kbFiles kb ++ [doc_rec d]; kbChunks := kbChunks kb |},
        Awaiting (doc_pending d rest))).
Proof.
  induction files as [|[fp raw] files IH]; intros kb; [left; split; reflexivity|].
  simpl. destruct (parseFrontJSON raw) as [[m|] body].
  - destruct (truthy m).
    + right. exists (fp, m, body), files. split; reflexivity.
    + apply IH.
  - apply IH.
Qed.

Lemma drive_success : forall ds es F C d rest obs fin,
  indexed rest = ds -> List.length es = S (List.length ds) ->
  drive (map Some es) {| kbFiles := F ++ [doc_rec d]; kbChunks := C |}
        (Awaiting (doc_pending d rest)) = (obs, fin) ->
  fin = ({| kbFiles := F ++ map doc_rec (d :: ds);
            kbChunks := C ++ List.concat (zip_chunks (d :: ds) es) |}, Resolved) /\
  List.length obs = S (List.length ds) /\
  (forall k, (k <= List.length ds)%nat ->
     nth_error obs k = Some {| kbFiles := F ++ map doc_rec (firstn (S k) (d :: ds));
                               kbChunks := C ++ List.concat (firstn k (zip_chunks (d :: ds) es)) |}).
Proof.
  induction ds as [|d' ds IH]; intros es F C d rest obs fin Hrest Hlen Hdrive;
    (destruct es as [|e es]; [discriminate|]); simpl in Hlen.
  - destruct es; [|discriminate]. simpl in Hdrive.
    rewrite doc_pending_chunks, doc_pending_rest in Hdrive.
    destruct (index_loop_spec rest {| kbFiles := F ++ [doc_rec d];
                                      kbChunks := C ++ doc_chunks d e |})
      as [[_ Hloop] | [d1 [rest1 [Hd _]]]]; [|congruence].
    rewrite Hloop in Hdrive. simpl in Hdrive. injection Hdrive as <- <-.
    split; [simpl; rewrite !app_nil_r; reflexivity|]. split; [reflexivity|].
    intros k Hk. assert (k = 0%nat) as -> by (simpl in Hk; lia). simpl. rewrite !app_nil_r. reflexivity.
  - simpl in Hdrive. rewrite doc_pending_chunks, doc_pending_rest in Hdrive.
    destruct (index_loop_spec rest {| kbFiles := F ++ [doc_rec d];
                                      kbChunks := C ++ doc_chunks d e |})
      as [[Hd _] | [d1 [rest1 [Hd Hloop]]]]; [congruence|].
    rewrite Hrest in Hd. injection Hd as <- Hrest1. rewrite Hloop in Hdrive.
    simpl in Hdrive.
    destruct (drive (map Some es) _ _) as [obs' fin'] eqn:Hdrive'.
    injection Hdrive as <- <-.
    destruct (IH es (F ++ [doc_rec d]) (C ++ doc_chunks d e) d' rest1 obs' fin'
                (eq_sym Hrest1) ltac:(lia) Hdrive') as (Hfin & Hobs & Hnth).
    split; [|split].
    + rewrite Hfin. simpl. rewrite <- !app_assoc. reflexivity.
    + simpl. lia.
    + intros [|k] Hk.
      * simpl. rewrite app_nil_r. reflexivity.
      * simpl. rewrite (Hnth k ltac:(simpl in Hk; lia)). simpl.
        rewrite <- !app_assoc. reflexivity.
Qed.

Lemma drive_failure : forall es ds F C d rest more,
  indexed rest = ds -> (List.length es <= List.length ds)%nat ->
  snd (drive (map Some es ++ None :: more)
             {| kbFiles := F ++ [doc_rec d]; kbChunks := C |} (Awaiting (doc_pending d rest)))
  = ({| kbFiles := F ++ map doc_rec (firstn (S (List.length es)) (d :: ds));
        kbChunks := C ++ List.concat (zip_chunks (d :: ds) es) |}, Rejected).
Proof.
  induction es as [|e es IH]; intros ds F C d rest more Hrest Hlen.
  - simpl. destruct more; simpl; rewrite app_nil_r; reflexivity.
  - destruct ds as [|d' ds]; [simpl in Hlen; lia|].
    simpl. rewrite doc_pending_chunks, doc_pending_rest.
    destruct (index_loop_spec rest {| kbFiles := F ++ [doc_rec d];
                                      kbChunks := C ++ doc_chunks d e |})
      as [[Hd _] | [d1 [rest1 [Hd Hloop]]]]; [congruence|].
    rewrite Hrest in Hd. injection Hd as <- Hrest1. rewrite Hloop. simpl.
    pose proof (IH ds (F ++ [doc_rec d]) (C ++ doc_chunks d e) d' rest1 more
                  (eq_sym Hrest1) ltac:(simpl in Hlen; lia)) as IH'.
    destruct (drive (map Some es ++ None :: more) _ _) as [obs fin] eqn:Hdrive.
    simpl in IH' |- *. rewrite IH'. simpl. rewrite <- !app_assoc. reflexivity.
Qed.
End BuilderFacts.

(* ================================================================== *)
(** ** Facts about chunk ids *)

Lemma uint_to_js_no_hash : forall d, ~ In 35%N (uint_to_js d).
Proof.
  induction d; simpl; try tauto;
    (intros [H | H]; [discriminate | contradiction]).
Qed.

Lemma uint_to_js_inj : forall d1 d2, uint_to_js d1 = uint_to_js d2 -> d1 = d2.
Proof.
  induction d1; destruct d2; simpl; intros H; try discriminate; try reflexivity;
    injection H as H; f_equal; auto.
Qed.

Lemma nat_to_js_inj : forall i j, nat_to_js i = nat_to_js j -> i = j.
Proof.
  intros i j H. apply DecimalNat.Unsigned.to_uint_inj, uint_to_js_inj, H.
Qed.

(** A text [a#x] whose suffix [x] holds no [#] determines [a] and [x]. *)
Lemma hash_split : forall a b x y : jstr,
  ~ In 35%N x -> ~ In 35%N y -> a ++ 35%N :: x = b ++ 35%N :: y -> a = b /\ x = y.
Proof.
  induction a as [|c a IH]; intros [|c' b] x y Hx Hy H; simpl in H.
  - injection H as H; auto.
  - injection H as <- H. exfalso. apply Hx. rewrite H. apply in_or_app. right; left; reflexivity.
  - injection H as -> H. exfalso. apply Hy. rewrite <- H. apply in_or_app. right; left; reflexivity.
  - injection H as -> H. destruct (IH b x y Hx Hy H) as [-> ->]. auto.
Qed.

Lemma chunk_id_inj : forall a b i j,
  a ++ js "#" ++ nat_to_js i = b ++ js "#" ++ nat_to_js j -> a = b /\ i = j.
Proof.
  intros a b i j H. apply hash_split in H; try apply uint_to_js_no_hash.
  destruct H as [-> H]. split; [reflexivity | apply nat_to_js_inj, H].
Qed.

Lemma chunk_records_ids : forall id m parts embeds n,
  map ch_id (chunk_records id m parts embeds n)
  = map (fun i => id ++ js "#" ++ nat_to_js i) (seq n (List.length embeds)).
Proof.
  intros id m parts embeds; induction embeds as [|e embeds IH]; intros n; simpl;
    [reflexivity | now rewrite IH].
Qed.

Lemma NoDup_map_injective {A B : Type} (f : A -> B) :
  (forall x y, f x = f y -> x = y) -> forall l, NoDup l -> NoDup (map f l).
Proof.
  intros Hf l Hl; induction Hl as [|x l Hx Hl IH]; simpl; constructor; auto.
  intros Hin. apply in_map_iff in Hin as (y & Hy & Hyl). apply Hf in Hy. subst. auto.
Qed.

Lemma chunk_records_nodup : forall id m parts embeds n,
  NoDup (map ch_id (chunk_records id m parts embeds n)).
Proof.
  intros. rewrite chunk_records_ids. apply NoDup_map_injective; [|apply seq_NoDup].
  intros i j H. apply chunk_id_inj in H. tauto.
Qed.

Section IdFacts.
Context `{JSONImpl}.

Lemma doc_pending_id : forall d rest, p_id (doc_pending d rest) = fr_id (doc_rec d).
Proof. intros [[fp m] body] rest; reflexivity. Qed.

Lemma in_zip_chunks_id : forall ds es c,
  In c (List.concat (zip_chunks ds es)) ->
  exists d i, In d ds /\ ch_id c = fr_id (doc_rec d) ++ js "#" ++ nat_to_js i.
Proof.
  induction ds as [|d ds IH]; intros [|e es] c Hc; simpl in Hc; try contradiction.
  apply in_app_or in Hc as [Hc | Hc].
  - unfold doc_chunks in Hc. rewrite doc_pending_id in Hc.
    apply (in_map ch_id) in Hc. rewrite chunk_records_ids in Hc.
    apply in_map_iff in Hc as (i & Hi & _).
    exists d, i. split; [left; reflexivity | symmetry; exact Hi].
  - destruct (IH es c Hc) as (d' & i & Hd' & Hid). exists d', i. split; [right|]; auto.
Qed.

Lemma zip_chunks_nodup : forall ds es,
  NoDup (map fr_id (map doc_rec ds)) -> NoDup (map ch_id (List.concat (zip_chunks ds es))).
Proof.
  induction ds as [|d ds IH]; intros [|e es] Hnd; simpl; try constructor.
  simpl in Hnd. apply NoDup_cons_iff in Hnd as [Hnot Hnd].
  rewrite map_app. apply NoDup_app.
  - unfold doc_chunks. apply chunk_records_nodup.
  - apply IH, Hnd.
  - intros x Hx Hy.
    unfold doc_chunks in Hx. rewrite chunk_records_ids, doc_pending_id in Hx.
    apply in_map_iff in Hx as (i & <- & _).
    apply in_map_iff in Hy as (c & Hc & Hin).
    destruct (in_zip_chunks_id ds es c Hin) as (d' & j & Hd' & Hid).
    rewrite Hid in Hc. apply chunk_id_inj in Hc as [Hc _].
    apply Hnot. rewrite <- Hc. apply in_map, in_map, Hd'.
Qed.
End IdFacts.

(* ================================================================== *)
(** ** Facts about the search loop *)

Lemma find_file_id : forall files id f, find_file files id = Some f -> fr_id f = id.
Proof.
  intros files id f Hf. apply find_some in Hf as [_ Hf]. apply jeq_spec, Hf.
Qed.

Lemma existsb_jeq_false : forall x seen, existsb (jeq x) seen = false -> ~ In x seen.
Proof.
  intros x seen Hx Hin. assert (existsb (jeq x) seen = true) as Ht; [|congruence].
  apply existsb_exists. exists x. split; [exact Hin | apply jeq_refl].
Qed.

Lemma collect_nodup : forall files scored seen items,
  NoDup (map it_id items) -> (forall it, In it items -> In (it_id it) seen) ->
  NoDup (map it_id (collect files scored seen items)).
Proof.
  intros files; induction scored as [|sc scored IH]; intros seen items Hnd Hseen;
    cbn [collect]; [exact Hnd|].
  destruct (existsb (jeq (ch_fileId (sc_chunk sc))) seen) eqn:Hin; [auto|].
  apply existsb_jeq_false in Hin.
  set (fid := ch_fileId (sc_chunk sc)) in *.
  assert (Hnd' : NoDup (map it_id (match find_file files fid with
                                   | Some f => items ++ [item_of f] | None => items end))
          /\ forall it, In it (match find_file files fid with
                               | Some f => items ++ [item_of f] | None => items end) ->
                   In (it_id it) (fid :: seen)).
  { destruct (find_file files fid) as [f|] eqn:Hf.
    - apply find_file_id in Hf. split.
      + rewrite map_app. apply NoDup_app; [exact Hnd | repeat constructor; simpl; tauto|].
        intros x Hx [Hy | []]. simpl in Hy. rewrite Hf in Hy. subst x.
        apply in_map_iff in Hx as (it & Hit & Hitin). apply Hin. rewrite <- Hit. auto.
      + intros it Hit. apply in_app_or in Hit as [Hit | [<- | []]].
        * right; auto.
        * left; simpl; symmetry; exact Hf.
    - split; [exact Hnd | intros it Hit; right; auto]. }
  destruct Hnd' as [Hnd' Hseen'].
  match goal with |- context [(5 <=? ?n)%nat] => destruct (5 <=? n)%nat end;
    [exact Hnd' | apply IH; assumption].
Qed.

Lemma collect_length : forall files scored seen items,
  (List.length items <= 4)%nat -> (List.length (collect files scored seen items) <= 5)%nat.
Proof.
  intros files; induction scored as [|sc scored IH]; intros seen items Hlen;
    cbn [collect]; [lia|].
  destruct (existsb _ seen); [auto|].
  assert (Hlen' : (List.length (match find_file files (ch_fileId (sc_chunk sc)) with
                                | Some f => items ++ [item_of f] | None => items end) <= 5)%nat)
    by (destruct (find_file _ _); [rewrite length_app; simpl; lia | lia]).
  destruct (Nat.leb_spec 5 (List.length (match find_file files (ch_fileId (sc_chunk sc)) with
                                         | Some f => items ++ [item_of f] | None => items end)));
    [exact Hlen' | apply IH; lia].
Qed.

Lemma collect_from : forall files scored seen items it,
  In it (collect files scored seen items) ->
  In it items \/ exists sc, In sc scored /\ ch_fileId (sc_chunk sc) = it_id it.
Proof.
  intros files; induction scored as [|sc scored IH]; intros seen items it Hit;
    cbn [collect] in Hit; [left; exact Hit|].
  assert (Hstep : forall it', In it' (match find_file files (ch_fileId (sc_chunk sc)) with
                                     | Some f => items ++ [item_of f] | None => items end) ->
                  In it' items \/ exists sc', In sc' (sc :: scored) /\
                                              ch_fileId (sc_chunk sc') = it_id it').
  { intros it' Hit'. destruct (find_file _ _) as [f|] eqn:Hf; [|left; exact Hit'].
    apply in_app_or in Hit' as [Hit' | [<- | []]]; [left; exact Hit'|].
    right. exists sc. split; [left; reflexivity|]. simpl. symmetry. eapply find_file_id, Hf. }
  destruct (existsb _ seen).
  - destruct (IH _ _ _ Hit) as [H | (sc' & Hsc' & Hid)]; [left; exact H|].
    right. exists sc'. split; [right|]; assumption.
  - match type of Hit with context [(5 <=? ?n)%nat] => destruct (5 <=? n)%nat end;
      [apply Hstep, Hit|].
    destruct (IH _ _ _ Hit) as [H | (sc' & Hsc' & Hid)]; [apply Hstep, H|].
    right. exists sc'. split; [right|]; assumption.
Qed.

Lemma insert_desc_const : forall x l,
  (forall y, In y l -> sc_score y = sc_score x) -> insert_desc x l = x :: l.
Proof.
  intros x [|y l] Hl; simpl; [reflexivity|].
  rewrite (Hl y (or_introl eq_refl)).
  destruct (Rlt_dec (sc_score x) (sc_score x)) as [Hlt|]; [|reflexivity].
  exfalso. exact (Rlt_irrefl _ Hlt).
Qed.

(** With all scores equal, the stable sort keeps the input order. *)
Lemma sort_desc_const : forall c l,
  (forall y, In y l -> sc_score y = c) -> sort_desc l = l.
Proof.
  intros c; induction l as [|x l IH]; intros Hl; simpl; [reflexivity|].
  rewrite IH by (intros y Hy; apply Hl; right; exact Hy).
  apply insert_desc_const. intros y Hy.
  rewrite (Hl y (or_intror Hy)), (Hl x (or_introl eq_refl)). reflexivity.
Qed.

(* ================================================================== *)
(** ** Facts about [cosine] and [trim] *)

Local Open Scope R_scope.

Lemma magnitude_zero : forall a, magnitude a = 0 -> Forall (fun x => x = 0) a.
Proof.
  intros a Ha. unfold magnitude in Ha.
  assert (Hpos : forall l, 0 <= fold_right (fun x acc => x * x + acc) 0 l).
  { induction l as [|x l IH]; simpl; [lra|]. pose proof (Rle_0_sqr x). unfold Rsqr in *. lra. }
  apply sqrt_eq_0 in Ha; [|apply Hpos].
  induction a as [|x a IH]; constructor; simpl in Ha.
  - pose proof (Rle_0_sqr x). unfold Rsqr in *. pose proof (Hpos a).
    assert (x * x = 0) as Hx by lra. apply Rmult_integral in Hx. tauto.
  - apply IH. pose proof (Rle_0_sqr x). unfold Rsqr in *. pose proof (Hpos a). lra.
Qed.

Lemma cosine_loop_zero_l : forall a b dot na nb, Forall (fun x => x = 0) a ->
  exists nb', cosine_loop a b dot na nb = (dot, na, nb').
Proof.
  induction a as [|x a IH]; intros [|y b] dot na nb Ha; simpl; eauto.
  inversion Ha as [|? ? Hx Ha']; subst.
  replace (dot + 0 * y) with dot by ring. replace (na + 0 * 0) with na by ring. auto.
Qed.

Lemma cosine_loop_zero_r : forall a b dot na nb, Forall (fun x => x = 0) b ->
  exists na', cosine_loop a b dot na nb = (dot, na', nb).
Proof.
  induction a as [|x a IH]; intros [|y b] dot na nb Hb; simpl; eauto.
  inversion Hb as [|? ? Hy Hb']; subst.
  replace (dot + x * 0) with dot by ring. replace (nb + 0 * 0) with nb by ring. auto.
Qed.

Lemma or_one_nonzero : forall d, or_one d <> 0.
Proof. intros d. unfold or_one. destruct (Req_dec_T d 0); [lra | assumption]. Qed.

Lemma cosine_divisor_nonzero : forall a b, cosine_divisor a b <> 0.
Proof.
  intros a b. unfold cosine_divisor. destruct (cosine_loop a b 0 0 0) as [[? ?] ?].
  apply or_one_nonzero.
Qed.

Lemma cosine_zero_vector : forall a b,
  Forall (fun x => x = 0) a \/ Forall (fun x => x = 0) b -> cosine a b = 0.
Proof.
  intros a b [Ha | Hb]; unfold cosine.
  - destruct (cosine_loop_zero_l a b 0 0 0 Ha) as [nb' ->].
    rewrite sqrt_0, Rmult_0_l. unfold or_one.
    destruct (Req_dec_T 0 0); [|congruence]. unfold Rdiv. ring.
  - destruct (cosine_loop_zero_r a b 0 0 0 Hb) as [na' ->].
    rewrite sqrt_0, Rmult_0_r. unfold or_one.
    destruct (Req_dec_T 0 0); [|congruence]. unfold Rdiv. ring.
Qed.

Local Close Scope R_scope.

Lemma trim_start_ws : forall q, Forall (fun c => is_ws c = true) q -> trim_start q = [].
Proof.
  induction q as [|c q IH]; intros Hq; simpl; [reflexivity|].
  inversion Hq as [|? ? Hc Hq']; subst. rewrite Hc. apply IH, Hq'.
Qed.

Lemma trim_ws : forall q, Forall (fun c => is_ws c = true) q -> trim q = [].
Proof. intros q Hq. unfold trim. rewrite (trim_start_ws q Hq). reflexivity. Qed.

(* ================================================================== *)
(** ** Several reindex requests *)

Section WorldFacts.
Context `{JSONImpl}.

Lemma kb_index_route_starts : forall K files w, indexed files <> [] ->
  w_embed_calls (kb_index_route K K files w) = S (w_embed_calls w) /\
  List.length (w_builds (kb_index_route K K files w)) = S (List.length (w_builds w)).
Proof.
  intros K files w Hne. unfold kb_index_route. rewrite jeq_refl. unfold start_indexKB.
  destruct (index_loop_spec files {| kbFiles := []; kbChunks := [] |})
    as [[Hnil _] | [d [rest [_ ->]]]]; [contradiction|].
  split; reflexivity.
Qed.

Lemma zip_chunks_length : forall ds es,
  (List.length (zip_chunks ds es) <= List.length es)%nat.
Proof. induction ds as [|d ds IH]; intros [|e es]; simpl; try lia. specialize (IH es). lia. Qed.

Lemma doc_rec_id : forall d, fr_id (doc_rec d) = basename_md (fr_file (doc_rec d)).
Proof.
  intros [[fp m] body]. unfold doc_rec, fileRec_of. destruct (splitENAR body). reflexivity.
Qed.
End WorldFacts.

(* ================================================================== *)
(** ** Other helpers of server.js *)

(** [countFilesRecursive(dir)] (lines 125-135): every entry that is not a
    directory counts one; a missing directory counts none. *)
Fixpoint count_node (n : node) : nat :=
  match n with
  | FileN _ _ => 1
  | DirN _ entries =>
      (fix go (l : list node) : nat :=
         match l with
         | [] => 0
         | x :: l' => count_node x + go l'
         end) entries
  end.

Definition countFilesRecursive (listing : option (list node)) : nat :=
  match listing with
  | None => 0
  | Some entries => fold_left (fun count e => count + count_node e) entries 0
  end.

(** Every file of the tree has a name ending in [.md]. *)
Fixpoint md_only (n : node) : bool :=
  match n with
  | FileN e _ => ends_with e (js ".md")
  | DirN _ entries =>
      (fix go (l : list node) : bool :=
         match l with
         | [] => true
         | x :: l' => md_only x && go l'
         end) entries
  end.

(** The depth that [parseFrontJSON]'s scan reaches over a text: one up per
    ['{'], one down per ['}']. *)
Fixpoint brace_balance (s : jstr) : Z :=
  match s with
  | [] => 0
  | c :: s' =>
      ((if N.eqb c 123 then 1 else if N.eqb c 125 then -1 else 0) + brace_balance s')%Z
  end.

(** No occurrence of [SEP] starts before position [k] of [s]. *)
Definition no_SEP_before (s : jstr) (k : nat) : bool :=
  forallb (fun j => negb (starts_with (skipn j s) SEP)) (seq 0 k).

(** [readJSON(fp, fallback)] (lines 136-138): the file's text is [None]
    when [fs.readFileSync] throws (no such file); a text that
    [JSON.parse] rejects also gives the fallback. *)
Definition readJSON `{JSONImpl} (file : option jstr) (fallback : json) : json :=
  match file with
  | None => fallback
  | Some text => match JSON_parse text with Some v => v | None => fallback end
  end.

(** The entry [logEvent] appends: [{ ts: Date.now(), mobile: mobile ||
    'unknown', type, summary }]; an absent [mobile] is [None]. *)
Definition log_entry (now : R) (mobile : option json) (type_ summary : jstr) : json :=
  JObj [(js "ts", JNum now);
        (js "mobile", match mobile with
                      | Some m => if truthy m then m else JStr (js "unknown")
                      | None => JStr (js "unknown")
                      end);
        (js "type", JStr type_); (js "summary", JStr summary)].

(** What [logEvent] does to the history file. *)
Inductive LogResult : Type :=
| LogWritten (text : jstr)  (** [writeJSON] wrote this text *)
| LogThrows.                (** [history.push] is not a function: a [TypeError] *)

(** [logEvent(mobile, type, summary)] (lines 142-148), for the history
    file's text [file]; [stringify2] is [JSON.stringify(_, null, 2)]. *)
Definition logEvent `{JSONImpl} (stringify2 : json -> jstr) (file : option jstr)
    (now : R) (mobile : option json) (type_ summary : jstr) : LogResult :=
  match readJSON file (JArr []) with
  | JArr history =>
      let history1 := history ++ [log_entry now mobile type_ summary] in
      let history2 := if (1000 <? List.length history1)%nat
                      then skipn (List.length history1 - 1000) history1
                      else history1 in
      LogWritten (stringify2 (JArr history2))
  | _ => LogThrows
  end.

(** *** The admin rate limiter (lines 87-119) *)

Definition adminRateLimitWindowMs : Z := 60 * 1000.
Definition adminRateLimitMax : nat := 10.

(** [adminRateHits]: the [Map] from client address to hit times
    ([Date.now()] values, integers); [None] is a missing key. *)
Definition HitStore := jstr -> option (list Z).

Definition no_hits : HitStore := fun _ => None.

(** [Map.prototype.set] and [delete]. *)
Definition store_set (m : HitStore) (k : jstr) (v : option (list Z)) : HitStore :=
  fun k' => if jeq k' k then v else m k'.

(** The body of the [setInterval] timer (lines 90-97). Each round of its
    loop touches only the entry it visits, so the loop is the same update
    on every key. *)
Definition adminCleanup (now : Z) (m : HitStore) : HitStore :=
  fun ip =>
    match m ip with
    | Some hits =>
        match filter (fun ts => (now - ts <=? adminRateLimitWindowMs)%Z) hits with
        | [] => None
        | recent => Some recent
        end
    | None => None
    end.

(** [adminRateLimiter] (lines 100-113): the new store and whether the
    request is refused with 429. *)
Definition adminRateLimiter (now : Z) (ip : jstr) (m : HitStore) : HitStore * bool :=
  let windowStart := (now - adminRateLimitWindowMs)%Z in
  let hits := match m ip with Some h => h | None => [] end in
  let recent := filter (fun ts => (windowStart <? ts)%Z) hits ++ [now] in
  (store_set m ip (Some recent), (adminRateLimitMax <? List.length recent)%nat).

(** [ensureAdminKey] (lines 115-119): [x-admin-key] against [ADMIN_KEY];
    a missing header is [None]. *)
Definition ensureAdminKey (ADMIN_KEY : jstr) (key : option jstr) : bool :=
  match key with Some k => jeq k ADMIN_KEY | None => false end.

(** What reaches [adminRouter]: a request (client address, admin key
    header, [Date.now()]) or a tick of the cleanup timer. *)
Inductive AdminEvent : Type :=
| AdminReq (ip : jstr) (key : option jstr) (now : Z)
| CleanupTick (now : Z).

Definition event_time (e : AdminEvent) : Z :=
  match e with AdminReq _ _ t => t | CleanupTick t => t end.

Inductive AdminResp : Type :=
| Resp429    (** too many admin requests *)
| Resp403    (** forbidden *)
| RespNext.  (** passed on to the admin routes *)

(** [adminRouter.use(adminRateLimiter); adminRouter.use(ensureAdminKey)]
    (lines 678-680): the limiter runs first. *)
Definition admin_step (ADMIN_KEY : jstr) (m : HitStore) (e : AdminEvent)
    : HitStore * option AdminResp :=
  match e with
  | CleanupTick now => (adminCleanup now m, None)
  | AdminReq ip key now =>
      let '(m', limited) := adminRateLimiter now ip m in
      (m', Some (if limited then Resp429
                 else if ensureAdminKey ADMIN_KEY key then RespNext else Resp403))
  end.

Definition admin_run (ADMIN_KEY : jstr) (m : HitStore) (evs : list AdminEvent) : HitStore :=
  fold_left (fun m e => fst (admin_step ADMIN_KEY m e)) evs m.

(** The times of the requests [ip] made. *)
Fixpoint req_times (ip : jstr) (evs : list AdminEvent) : list Z :=
  match evs with
  | [] => []
  | AdminReq ip' _ t :: evs' => if jeq ip' ip then t :: req_times ip evs' else req_times ip evs'
  | CleanupTick _ :: evs' => req_times ip evs'
  end.

(** *** [GET /api/history] (lines 268-277) *)

(** The test [!mobile || h.mobile === mobile] on one history entry: [None]
    when it throws (property access on a [null] entry). *)
Definition history_match (mobile : jstr) (h : json) : option bool :=
  match mobile with
  | [] => Some true
  | _ :: _ =>
      match h with
      | JNull => None
      | _ => Some (match get (js "mobile") h with
                   | Some (JStr m) => jeq m mobile
                   | _ => false
                   end)
      end
  end.

(** [Array.prototype.filter] with a test that may throw. *)
Fixpoint filter_opt (p : json -> option bool) (l : list json) : option (list json) :=
  match l with
  | [] => Some []
  | x :: l' =>
      match p x with
      | None => None
      | Some b =>
          match filter_opt p l' with
          | None => None
          | Some r => Some (if b then x :: r else r)
          end
      end
  end.

(** The handler for the text [String(req.query.mobile || '')]: [None] is the
    500 answer. [sort_ts] is [.sort((a,b) => b.ts - a.ts)]: [None] when the
    comparator throws (a [null] entry); otherwise an order of the entries,
    which the comparator does not always determine ([b.ts - a.ts] is [NaN],
    read as [0], for an entry without a numeric [ts]). *)
Definition history_route `{JSONImpl} (sort_ts : list json -> option (list json))
    (file : option jstr) (mobile : jstr) : option (list json) :=
  match readJSON file (JArr []) with
  | JArr hs =>
      match filter_opt (history_match mobile) hs with
      | Some fl => match sort_ts fl with Some sl => Some (firstn 50 sl) | None => None end
      | None => None
      end
  | _ => None
  end.

(** *** [POST /api/profile] (lines 252-265) *)











(* ================================================================== *)
(** ** Concrete inputs *)

(** [JSON.parse] and [JSON.stringify] on the only texts and values the
    concrete runs below give them: [JSON.parse('{}')] is the empty object
    and [JSON.stringify({})] is ['{}']. *)
#[export] Instance node_json : JSONImpl := {|
  JSON_parse := fun s => if jeq s (js "{}") then Some (JObj []) else None;
  JSON_stringify := fun j => match j with JObj [] => js "{}" | _ => [] end |}.

(** JSON text of a value without numbers whose strings need no escapes:
    what [JSON.stringify] gives for such a value. *)
Fixpoint print_json (j : json) : jstr :=
  let q (s : jstr) := 34%N :: s ++ [34%N] in
  match j with
  | JNull => js "null"
  | JBool true => js "true"
  | JBool false => js "false"
  | JNum _ => []
  | JStr s => q s
  | JArr l =>
      91%N :: (fix items (l : list json) : jstr :=
                 match l with
                 | [] => []
                 | [v] => print_json v
                 | v :: l' => print_json v ++ 44%N :: items l'
                 end) l ++ [93%N]
  | JObj fs =>
      123%N :: (fix fields (fs : list (jstr * json)) : jstr :=
                  match fs with
                  | [] => []
                  | [(k, v)] => q k ++ 58%N :: print_json v
                  | (k, v) :: fs' => q k ++ 58%N :: print_json v ++ 44%N :: fields fs'
                  end) fs ++ [125%N]
  end.

(** [JSON.parse] on the texts of the values of a table: the text of a
    listed value parses to it, and any other text is refused. *)
Fixpoint table_parse (tbl : list json) (s : jstr) : option json :=
  match tbl with
  | [] => None
  | v :: tbl' => if jeq (print_json v) s then Some v else table_parse tbl' s
  end.

(** [JSON.parse] and [JSON.stringify] for runs whose files hold the texts
    of the values of [tbl]. *)
Definition fixture_json (tbl : list json) : JSONImpl :=
  {| JSON_parse := table_parse tbl; JSON_stringify := print_json |}.

Definition empty_kb : KB := {| kbFiles := []; kbChunks := [] |}.

(** [kb/a.md] and [kb/b.md]: two files with distinct ids. *)
Definition two_files : list (jstr * jstr) :=
  readAllFiles (js "/kb") (Some [FileN (js "a.md") (js "{}"); FileN (js "b.md") (js "{}")]).

(** The Embedding Client's answers for [two_files]: two vectors for
    [a.md], one for [b.md]. *)
Definition es_two : list (list vec) := [[[]; []]; [[]]].

(** [kb/x.md] holding an empty front-matter block. *)
Definition one_file : list (jstr * jstr) :=
  readAllFiles (js "/kb") (Some [FileN (js "x.md") (js "{}")]).

(** The generation a first build of [kb/x.md] leaves, the Embedding
    Client returning one vector for its one chunk. *)
Definition gen_x : KB := fst (snd (rebuild empty_kb one_file [Some [[]]])).

(** [kb/a/x.md] and [kb/b/x.md]: two files with the same base name. *)
Definition two_dirs : list (jstr * jstr) :=
  readAllFiles (js "/kb")
    (Some [DirN (js "a") [FileN (js "x.md") (js "{}")];
           DirN (js "b") [FileN (js "x.md") (js "{}")]]).

Definition idle_world : World := {| w_kb := gen_x; w_builds := []; w_embed_calls := 0 |}.

(** An index of six files: twenty chunks of [a] followed by one chunk of
    each of [b] to [f], all with the same (empty) embedding. *)
Definition ex_file (fid : jstr) : FileRec :=
  {| fr_id := fid; fr_file := js "/kb/" ++ fid ++ js ".md"; fr_meta := JObj [];
     fr_summaryEN := []; fr_summaryAR := []; fr_bodyEN := []; fr_bodyAR := [] |}.

Definition ex_chunk (fid : jstr) (i : nat) : ChunkRec :=
  {| ch_id := fid ++ js "#" ++ nat_to_js i; ch_fileId := fid; ch_text := Some [];
     ch_meta := JObj []; ch_embedding := [] |}.

Definition six_ids : list jstr := [js "a"; js "b"; js "c"; js "d"; js "e"; js "f"].

Definition ex_kb : KB :=
  {| kbFiles := map ex_file six_ids;
     kbChunks := map (ex_chunk (js "a")) (seq 0 20)
                 ++ map (fun fid => ex_chunk fid 0) (tl six_ids) |}.

(** An index of three files whose chunks, all with the same (empty)
    embedding, come in the order [a#0], [b#0], [a#1], [c#0]. *)
Definition mixed_kb : KB :=
  {| kbFiles := map ex_file [js "a"; js "b"; js "c"];
     kbChunks := [ex_chunk (js "a") 0; ex_chunk (js "b") 0; ex_chunk (js "a") 1;
                  ex_chunk (js "c") 0] |}.

(** A history of a thousand [null] entries. *)
Definition null_history : list json := repeat JNull 1000.

(** The history and profiles files of the runs below: the history above,
    the empty object, a history of five entries of [0511] followed by
    fifty-five of [0500], and two profiles. *)
Definition hist_entry (m : jstr) : json := JObj [(js "mobile", JStr m)].

Definition hist_60 : list json :=
  repeat (hist_entry (js "0511")) 5 ++ repeat (hist_entry (js "0500")) 55.

Definition profiles_2 : list json :=
  [JObj [(js "name", JStr (js "Old")); (js "mobile", JStr (js "05"));
         (js "city", JStr (js "Dubai"))];
   JObj [(js "name", JStr (js "B")); (js "mobile", JStr (js "06"))]].

Definition files_json : JSONImpl :=
  fixture_json [JArr null_history; JObj []; JArr hist_60; JArr profiles_2].

(* ================================================================== *)
(** ** Whole rebuilds run alone *)

Section RebuildFacts.
Context `{JSONImpl}.

(** A rebuild whose embedding calls all succeed: the states a concurrent
    reader can observe at its suspension points, and its final state. *)
Lemma rebuild_success : forall kb0 files es,
  List.length es = List.length (indexed files) ->
  let '(obs, (kbF, t)) := rebuild kb0 files (map Some es) in
  t = Resolved /\ kbF = built_state (indexed files) es /\
  List.length obs = List.length (indexed files) /\
  (forall k, (k < List.length (indexed files))%nat ->
     nth_error obs k = Some (prefix_state (indexed files) es k)).
Proof.
  intros kb0 files es Hlen. unfold rebuild, start_indexKB.
  destruct (index_loop_spec files {| kbFiles := []; kbChunks := [] |})
    as [[Hnil Hloop] | [d [rest [Hd Hloop]]]]; rewrite Hloop; cbv beta iota.
  - rewrite Hnil in Hlen |- *. destruct es; [|discriminate]. simpl.
    repeat split; try reflexivity. intros k Hk. simpl in Hk. lia.
  - destruct (drive (map Some es) _ _) as [obs [kbF t]] eqn:Hreb.
    rewrite Hd in Hlen |- *.
    destruct (drive_success (indexed rest) es [] [] d rest obs (kbF, t) eq_refl Hlen Hreb)
      as (Hfin & Hobs & Hnth).
    injection Hfin as -> ->.
    split; [reflexivity|]. split; [reflexivity|]. split; [exact Hobs|].
    intros k Hk. apply Hnth. simpl in Hk. lia.
Qed.

(** A rebuild whose embedding call fails on the [(length es + 1)]-th
    indexed document. *)
Lemma rebuild_failure : forall kb0 files es more,
  (List.length es < List.length (indexed files))%nat ->
  snd (rebuild kb0 files (map Some es ++ None :: more)) =
    (prefix_state (indexed files) es (List.length es), Rejected).
Proof.
  intros kb0 files es more Hlt. unfold rebuild, start_indexKB.
  destruct (index_loop_spec files {| kbFiles := []; kbChunks := [] |})
    as [[Hnil _] | [d [rest [Hd Hloop]]]].
  - rewrite Hnil in Hlt. simpl in Hlt. lia.
  - rewrite Hloop; cbv beta iota. rewrite Hd in Hlt |- *. simpl in Hlt.
    etransitivity;
      [exact (drive_failure es (indexed rest) [] [] d rest more eq_refl ltac:(lia))|].
    unfold prefix_state. rewrite (firstn_all2 (zip_chunks (d :: indexed rest) es))
      by apply zip_chunks_length.
    reflexivity.
Qed.
End RebuildFacts.

(* ================================================================== *)
(** * The claims *)

(** Claim C1 (as the code has it): a rebuild does not swap generations.
    It empties the shared arrays at its start and refills them in place,
    so when a rebuild runs alone and its embedding calls succeed, the
    state a concurrent search reads while the build is suspended on the
    embedding call for the [(k+1)]-th indexed file holds the file records
    of the first [k+1] indexed files and the chunk records of the first
    [k], and the state after its last step is the whole new generation. *)
Theorem rebuild_observed_states `{JSONImpl} (kb0 : KB) (files : list (jstr * jstr))
    (es : list (list vec)) :
  List.length es = List.length (indexed files) ->
  let '(obs, (kbF, t)) := rebuild kb0 files (map Some es) in
  t = Resolved /\ kbF = built_state (indexed files) es /\
  List.length obs = List.length (indexed files) /\
  (forall k, (k < List.length (indexed files))%nat ->
     nth_error obs k = Some (prefix_state (indexed files) es k)).
Proof. intros Hlen. apply rebuild_success, Hlen. Qed.

Lemma rebuild_observed_states_witness :
  List.length [[[]] : list vec] = List.length (indexed one_file) /\
  let '(obs, (kbF, t)) := rebuild empty_kb one_file (map Some [[[]]]) in
  t = Resolved /\ kbF = built_state (indexed one_file) [[[]]] /\
  List.length obs = List.length (indexed one_file) /\
  (forall k, (k < List.length (indexed one_file))%nat ->
     nth_error obs k = Some (prefix_state (indexed one_file) [[[]]] k)).
Proof.
  split; [reflexivity|].
  apply (rebuild_observed_states empty_kb one_file [[[]]]). reflexivity.
Defined.

(** Claim C1, counterexample: rebuilding [kb/x.md] over the generation a
    first build of it left, a search that runs while the build waits for
    its embedding call reads a state that is neither that generation nor
    the new one (the file record is there, its chunks are not). *)
Lemma rebuild_mixed_state_counterexample :
  let '(obs, (kbF, t)) := rebuild gen_x one_file [Some [[]]] in
  t = Resolved /\ exists kb, In kb obs /\ kb <> gen_x /\ kb <> kbF.
Proof.
  vm_compute. split; [reflexivity|].
  eexists. split; [left; reflexivity | split; discriminate].
Qed.

(** Claim C2 (as the code has it): if the Embedding Client fails on the
    [(k+1)]-th indexed file of a rebuild that runs alone, the build aborts
    with the rejection, and the shared arrays are left holding the file
    records of the first [k+1] indexed files and the chunk records of the
    first [k]; the previous generation is not kept. *)
Theorem rebuild_failure_state `{JSONImpl} (kb0 : KB) (files : list (jstr * jstr))
    (es : list (list vec)) (more : list EmbedAnswer) :
  (List.length es < List.length (indexed files))%nat ->
  snd (rebuild kb0 files (map Some es ++ None :: more)) =
    (prefix_state (indexed files) es (List.length es), Rejected).
Proof. intros Hlt. apply rebuild_failure, Hlt. Qed.

Lemma rebuild_failure_state_witness :
  (List.length ([] : list (list vec)) < List.length (indexed one_file))%nat /\
  snd (rebuild gen_x one_file (map Some [] ++ None :: [])) =
    (prefix_state (indexed one_file) [] (List.length ([] : list (list vec))), Rejected).
Proof.
  split; [vm_compute; lia|].
  apply (rebuild_failure_state gen_x one_file [] []). vm_compute. lia.
Defined.

(** Claim C2, counterexample: when the embedding call of a rebuild of
    [kb/x.md] fails, the build is rejected and the arrays no longer hold
    the generation that was current before it. *)
Lemma rebuild_failure_counterexample :
  snd (snd (rebuild gen_x one_file [None])) = Rejected /\
  fst (snd (rebuild gen_x one_file [None])) <> gen_x.
Proof. vm_compute. split; [reflexivity | discriminate]. Qed.

(** Claim C3: hydrating, against the version stamp it carries, what
    [persist] wrote for a generation gives a generation with the same file
    count, chunk count and version stamp (indeed the same generation); a
    payload whose version stamp differs from the expected one is absent. *)
Theorem cache_round_trip :
  (forall g : CacheStore.Generation,
     exists g', CacheStore.hydrate (CacheStore.g_version g) (Some (CacheStore.persist g)) = Some g' /\
       List.length (CacheStore.g_files g') = List.length (CacheStore.g_files g) /\
       List.length (CacheStore.g_chunks g') = List.length (CacheStore.g_chunks g) /\
       CacheStore.g_version g' = CacheStore.g_version g /\ g' = g) /\
  (forall (expected : R) (j : json) (v : R),
     CacheStore.get_num (js "version") j = Some v -> v <> expected ->
     CacheStore.hydrate expected (Some j) = None).
Proof.
  split.
  - intros g. exists g. split; [|repeat split].
    unfold CacheStore.hydrate, CacheStore.persist. cbn.
    destruct (Req_dec_T (CacheStore.g_version g) (CacheStore.g_version g)) as [_|Hne];
      [|contradiction].
    rewrite (CacheStore.traverse_map _ _ CacheStore.dec_file_enc),
            (CacheStore.traverse_map _ _ CacheStore.dec_chunk_enc).
    destruct g; reflexivity.
  - intros expected j v Hv Hne. simpl. rewrite Hv.
    destruct (Req_dec_T v expected); [contradiction | reflexivity].
Qed.

Lemma cache_round_trip_witness :
  CacheStore.get_num (js "version") (JObj [(js "version", JNum 0%R)]) = Some 0%R /\
  0%R <> 1%R /\
  CacheStore.hydrate 1%R (Some (JObj [(js "version", JNum 0%R)])) = None.
Proof.
  split; [reflexivity|]. split; [exact (not_eq_sym R1_neq_R0)|].
  apply (proj2 cache_round_trip 1%R _ 0%R); [reflexivity | exact (not_eq_sym R1_neq_R0)].
Defined.

(** Claim C4 (as the code has it): reindex requests are not coalesced.
    Each [POST /api/kb/index] with the admin key starts its own build even
    while others are in flight, so [n] such requests that arrive before
    any build completes leave [n] builds in flight and have issued [n]
    embedding calls. *)
Theorem reindex_requests_not_coalesced `{JSONImpl} (K : jstr) (files : list (jstr * jstr))
    (n : nat) (w : World) :
  indexed files <> [] ->
  w_embed_calls (Nat.iter n (kb_index_route K K files) w) = (n + w_embed_calls w)%nat /\
  List.length (w_builds (Nat.iter n (kb_index_route K K files) w)) =
    (n + List.length (w_builds w))%nat.
Proof.
  intros Hne. induction n as [|n [IH1 IH2]]; [split; reflexivity|].
  simpl. destruct (kb_index_route_starts K files (Nat.iter n (kb_index_route K K files) w) Hne)
    as [H1 H2].
  rewrite H1, H2, IH1, IH2. split; reflexivity.
Qed.

Lemma reindex_requests_not_coalesced_witness :
  indexed one_file <> [] /\
  w_embed_calls (Nat.iter 3 (kb_index_route (js "k") (js "k") one_file) idle_world) =
    (3 + w_embed_calls idle_world)%nat /\
  List.length (w_builds (Nat.iter 3 (kb_index_route (js "k") (js "k") one_file) idle_world)) =
    (3 + List.length (w_builds idle_world))%nat.
Proof.
  assert (Hne : indexed one_file <> []) by (vm_compute; discriminate).
  split; [exact Hne|]. apply reindex_requests_not_coalesced, Hne.
Defined.

(** Claim C4, counterexample: two overlapping reindex requests on an idle
    service leave two builds in flight and issue two embedding calls. *)
Lemma reindex_overlap_counterexample :
  w_embed_calls (Nat.iter 2 (kb_index_route (js "k") (js "k") one_file) idle_world) = 2%nat /\
  List.length (w_builds (Nat.iter 2 (kb_index_route (js "k") (js "k") one_file) idle_world)) = 2%nat.
Proof. vm_compute. split; reflexivity. Qed.

(** Claim C5 (as the code has it): in the generation a rebuild that runs
    alone and completes leaves, each file id is the base name of its path
    without [.md], and the chunk ids [fileId#idx] are pairwise distinct
    provided the file ids are. *)
Theorem chunk_ids_distinct `{JSONImpl} (kb0 : KB) (files : list (jstr * jstr))
    (es : list (list vec)) :
  List.length es = List.length (indexed files) ->
  let kbF := fst (snd (rebuild kb0 files (map Some es))) in
  Forall (fun f => fr_id f = basename_md (fr_file f)) (kbFiles kbF) /\
  (NoDup (map fr_id (kbFiles kbF)) -> NoDup (map ch_id (kbChunks kbF))).
Proof.
  intros Hlen. pose proof (rebuild_success kb0 files es Hlen) as Hs.
  destruct (rebuild kb0 files (map Some es)) as [obs [kbF t]].
  destruct Hs as (_ & -> & _). simpl. split.
  - apply Forall_forall. intros f Hf. apply in_map_iff in Hf as (d & <- & _).
    apply doc_rec_id.
  - apply zip_chunks_nodup.
Qed.

Lemma chunk_ids_distinct_witness :
  List.length es_two = List.length (indexed two_files) /\
  NoDup (map fr_id (kbFiles (fst (snd (rebuild empty_kb two_files (map Some es_two)))))) /\
  map ch_id (kbChunks (fst (snd (rebuild empty_kb two_files (map Some es_two))))) =
    [js "a#0"; js "a#1"; js "b#0"] /\
  NoDup (map ch_id (kbChunks (fst (snd (rebuild empty_kb two_files (map Some es_two)))))).
Proof.
  assert (Hl : List.length es_two = List.length (indexed two_files)) by (vm_compute; reflexivity).
  assert (Hf : NoDup (map fr_id (kbFiles (fst (snd (rebuild empty_kb two_files (map Some es_two))))))).
  { assert (E : map fr_id (kbFiles (fst (snd (rebuild empty_kb two_files (map Some es_two)))))
                = [js "a"; js "b"]) by (vm_compute; reflexivity).
    rewrite E. constructor; [intros [Hab | []]; discriminate | constructor; [intros [] | constructor]]. }
  split; [exact Hl|]. split; [exact Hf|]. split; [vm_compute; reflexivity|].
  exact (proj2 (chunk_ids_distinct empty_kb two_files es_two Hl) Hf).
Defined.

(** Claim C5, counterexample: [kb/a/x.md] and [kb/b/x.md] both get the
    file id [x], and the generation built from them holds the chunk id
    [x#0] twice. *)
Lemma chunk_ids_counterexample :
  ~ NoDup (map ch_id (kbChunks (fst (snd (rebuild empty_kb two_dirs [Some [[]]; Some [[]]]))))).
Proof.
  assert (E : map ch_id (kbChunks (fst (snd (rebuild empty_kb two_dirs [Some [[]]; Some [[]]]))))
              = [js "x#0"; js "x#0"]) by (vm_compute; reflexivity).
  rewrite E. intros Hnd. apply NoDup_cons_iff in Hnd as [Hnot _]. apply Hnot. left. reflexivity.
Qed.

(** Claim C6: with [overlap < size], [chunk text size overlap] terminates
    (its loop ends within its fuel) and returns the windows
    [text.slice(k * step, k * step + size)] for [k = 0 .. n-1], where
    [step = size - overlap]; each start is below the text length, each
    start exceeds the previous one by exactly [step > 0], and the next
    start [n * step] is at or past the text length. *)
Theorem chunk_terminates (text : jstr) (size overlap : Z) :
  (overlap < size)%Z ->
  let step := (size - overlap)%Z in
  let n := window_count (Z.of_nat (List.length text)) step in
  chunk text size overlap = Some (map (window text size step) (seq 0 n)) /\
  (forall k, (k < n)%nat -> (window_start step k < Z.of_nat (List.length text))%Z) /\
  (forall k, window_start step (S k) = (window_start step k + step)%Z /\
             (window_start step k < window_start step (S k))%Z) /\
  (Z.of_nat (List.length text) <= window_start step n)%Z.
Proof.
  intros Hlt. cbv zeta. split; [|split; [|split]].
  - unfold chunk. change 0%Z with (window_start (size - overlap) 0).
    rewrite (chunk_loop_windows text size overlap Hlt _ 0 (S (List.length text)) [] eq_refl).
    + reflexivity.
    + pose proof (window_count_le_length text size overlap Hlt). unfold window_count in *. lia.
  - intros k Hk. apply (window_count_spec text size overlap Hlt). exact Hk.
  - intros k. unfold window_start. lia.
  - match goal with |- (_ <= window_start _ ?n)%Z => set (m := n) end.
    destruct (Z_lt_le_dec (window_start (size - overlap) m) (Z.of_nat (List.length text)))
      as [Hin|Hout]; [|exact Hout].
    apply (window_count_spec text size overlap Hlt) in Hin. unfold m in Hin. lia.
Qed.

Lemma chunk_terminates_witness :
  (1 < 3)%Z /\
  let step := (3 - 1)%Z in
  let n := window_count (Z.of_nat (List.length (js "abcdefg"))) step in
  chunk (js "abcdefg") 3 1 = Some (map (window (js "abcdefg") 3 step) (seq 0 n)) /\
  (forall k, (k < n)%nat -> (window_start step k < Z.of_nat (List.length (js "abcdefg")))%Z) /\
  (forall k, window_start step (S k) = (window_start step k + step)%Z /\
             (window_start step k < window_start step (S k))%Z) /\
  (Z.of_nat (List.length (js "abcdefg")) <= window_start step n)%Z.
Proof. split; [lia|]. apply (chunk_terminates (js "abcdefg") 3 1). lia. Defined.

Local Open Scope R_scope.

(** Claim C7: when one of the two vectors has magnitude zero, [cosine]
    returns 0, and the divisor it uses ([(sqrt na * sqrt nb) || 1]) is
    not zero. *)
Theorem cosine_zero_magnitude (a b : vec) :
  magnitude a = 0 \/ magnitude b = 0 ->
  cosine a b = 0 /\ cosine_divisor a b <> 0.
Proof.
  intros Hab. split; [|apply cosine_divisor_nonzero].
  apply cosine_zero_vector.
  destruct Hab as [Ha | Hb]; [left; apply magnitude_zero, Ha | right; apply magnitude_zero, Hb].
Qed.

Lemma cosine_zero_magnitude_witness :
  (magnitude [0] = 0 \/ magnitude [0] = 0) /\
  cosine [0] [1] = 0 /\ cosine_divisor [0] [1] <> 0.
Proof.
  assert (H0 : magnitude [0] = 0)
    by (unfold magnitude; simpl; rewrite Rmult_0_l, Rplus_0_l; apply sqrt_0).
  split; [left; exact H0|]. apply cosine_zero_magnitude. left. exact H0.
Defined.

Local Close Scope R_scope.

(** Claim C8: whatever the query, the answer of the Embedding Client and
    the state of the arrays, the items [POST /api/kb/search] returns have
    pairwise distinct ids (file ids), and there are at most 5 of them. *)
Theorem search_items_distinct (q : jstr) (ans : EmbedAnswer) (kb : KB) (items : list Item) :
  run_search (kb_search_route q) ans kb = RItems items ->
  NoDup (map it_id items) /\ (List.length items <= 5)%nat.
Proof.
  unfold run_search, kb_search_route. destruct (trim q) as [|c q'].
  - intros E. injection E as <-. split; [constructor | simpl; lia].
  - destruct ans as [[|qEmb embs]|]; [destruct (kbChunks kb)| |]; intros E;
      try discriminate.
    + injection E as <-. split; [constructor | simpl; lia].
    + injection E as <-. unfold search_items. split.
      * apply collect_nodup; [constructor | intros it []].
      * apply collect_length. simpl. lia.
Qed.

Lemma search_items_distinct_witness :
  run_search (kb_search_route (js "q")) (Some [[]]) mixed_kb =
    RItems (map item_of (map ex_file [js "a"; js "b"; js "c"])) /\
  NoDup (map it_id (map item_of (map ex_file [js "a"; js "b"; js "c"]))) /\
  (List.length (map item_of (map ex_file [js "a"; js "b"; js "c"])) <= 5)%nat.
Proof.
  assert (Hr : run_search (kb_search_route (js "q")) (Some [[]]) mixed_kb =
               RItems (map item_of (map ex_file [js "a"; js "b"; js "c"]))).
  { change (RItems (search_items mixed_kb []) =
            RItems (map item_of (map ex_file [js "a"; js "b"; js "c"]))).
    unfold search_items.
    rewrite (sort_desc_const (cosine [] []) (scored_chunks mixed_kb [])).
    - reflexivity.
    - intros y Hy. unfold scored_chunks in Hy. apply in_map_iff in Hy as (c & <- & Hc).
      simpl in Hc. destruct Hc as [<- | [<- | [<- | [<- | []]]]]; reflexivity. }
  split; [exact Hr|].
  exact (search_items_distinct (js "q") (Some [[]]) mixed_kb _ Hr).
Defined.

(** Claim C9: for a query of whitespace only (or empty), the search
    handler answers [{ items: [] }] at once, without calling the
    Embedding Client. *)
Theorem search_blank_query (q : jstr) :
  Forall (fun c => is_ws c = true) q -> kb_search_route q = SRet (RItems []).
Proof. intros Hq. unfold kb_search_route. rewrite (trim_ws q Hq). reflexivity. Qed.

Lemma search_blank_query_witness :
  Forall (fun c => is_ws c = true) [32%N; 10%N] /\ kb_search_route [32%N; 10%N] = SRet (RItems []).
Proof.
  assert (Hq : Forall (fun c => is_ws c = true) [32%N; 10%N]) by (repeat constructor).
  split; [exact Hq | apply search_blank_query, Hq].
Defined.

(** In [ex_kb] every chunk has the same score, so the twenty best chunks
    are the twenty chunks of [a], and the search returns [a] alone. *)
Lemma ex_search_items : search_items ex_kb [] = [item_of (ex_file (js "a"))].
Proof.
  unfold search_items.
  rewrite (sort_desc_const (cosine [] []) (scored_chunks ex_kb [])).
  - reflexivity.
  - intros y Hy. unfold scored_chunks in Hy. apply in_map_iff in Hy as (c & <- & Hc).
    change (In c (map (ex_chunk (js "a")) (seq 0 20)
                  ++ map (fun fid => ex_chunk fid 0) (tl six_ids))) in Hc.
    apply in_app_or in Hc as [Hc | Hc];
      apply in_map_iff in Hc as (i & <- & _); reflexivity.
Qed.

(** Claim C10: the search deduplicates only among the 20 best chunks:
    every file it returns has a chunk among the 20 highest-scoring ones,
    and there is an index in which six files have chunks and records but
    the search returns fewer than 5 items. *)
Theorem search_top20_only :
  (forall (kb : KB) (qEmb : vec) (it : Item), In it (search_items kb qEmb) ->
     exists sc, In sc (firstn 20 (sort_desc (scored_chunks kb qEmb))) /\
                ch_fileId (sc_chunk sc) = it_id it) /\
  (exists (kb : KB) (qEmb : vec) (ids : list jstr),
     NoDup ids /\ (5 < List.length ids)%nat /\
     (forall id, In id ids ->
        (exists c, In c (kbChunks kb) /\ ch_fileId c = id) /\
        (exists f, In f (kbFiles kb) /\ fr_id f = id)) /\
     (List.length (search_items kb qEmb) < 5)%nat).
Proof.
  split.
  - intros kb qEmb it Hit. unfold search_items in Hit.
    destruct (collect_from _ _ _ _ _ Hit) as [[] | H]. exact H.
  - exists ex_kb, [], six_ids. split; [|split; [|split]].
    + unfold six_ids. repeat constructor; vm_compute; intuition discriminate.
    + simpl. lia.
    + intros id Hid. split.
      * unfold six_ids in Hid. cbn [In] in Hid. destruct Hid as [<- | Hid].
        -- exists (ex_chunk (js "a") 0). split; [|reflexivity].
           apply in_or_app. left. apply in_map. left. reflexivity.
        -- exists (ex_chunk id 0). split; [|reflexivity].
           apply in_or_app. right. apply (in_map (fun fid => ex_chunk fid 0)). exact Hid.
      * exists (ex_file id). split; [apply in_map, Hid | reflexivity].
    + rewrite ex_search_items. simpl. lia.
Qed.

Lemma search_top20_only_witness :
  In (item_of (ex_file (js "a"))) (search_items ex_kb []) /\
  exists sc, In sc (firstn 20 (sort_desc (scored_chunks ex_kb []))) /\
             ch_fileId (sc_chunk sc) = it_id (item_of (ex_file (js "a"))).
Proof.
  assert (Hin : In (item_of (ex_file (js "a"))) (search_items ex_kb []))
    by (rewrite ex_search_items; left; reflexivity).
  split; [exact Hin | apply (proj1 search_top20_only ex_kb [] _ Hin)].
Defined.

(* ================================================================== *)
(** * Further properties of server.js *)

(** ** Helper facts *)

(** Induction on directory trees, with the hypothesis on every entry. *)
Fixpoint node_ind_nested (P : node -> Prop)
    (Hf : forall e c, P (FileN e c))
    (Hd : forall e l, Forall P l -> P (DirN e l)) (n : node) : P n :=
  match n with
  | FileN e c => Hf e c
  | DirN e l =>
      Hd e l ((fix go (l : list node) : Forall P l :=
                 match l with
                 | [] => Forall_nil P
                 | x :: l' => Forall_cons x (node_ind_nested P Hf Hd x) (go l')
                 end) l)
  end.

Lemma starts_with_app_l : forall s t p, starts_with s p = true -> starts_with (s ++ t) p = true.
Proof.
  intros s t p; revert s. induction p as [|x p IH]; intros s H.
  - destruct s, t; reflexivity.
  - destruct s as [|y s]; simpl in *; [discriminate|].
    apply andb_true_iff in H as [Hx Hs]. rewrite Hx, (IH s Hs). reflexivity.
Qed.

Lemma ends_with_app_r : forall a e p, ends_with e p = true -> ends_with (a ++ e) p = true.
Proof. intros a e p H. unfold ends_with in *. rewrite rev_app_distr. apply starts_with_app_l, H. Qed.

Lemma files_under_paths : forall n dir fp c, In (fp, c) (files_under dir n) ->
  ends_with fp (js ".md") = true /\ exists rest, fp = dir ++ js "/" ++ rest.
Proof.
  induction n as [e c0 | e l Hl] using node_ind_nested; intros dir fp c Hin; simpl in Hin.
  - destruct (ends_with e (js ".md")) eqn:He; [|contradiction].
    destruct Hin as [Heq | []]. injection Heq as <- <-. split.
    + unfold path_join. rewrite app_assoc. apply ends_with_app_r, He.
    + exists e. reflexivity.
  - induction Hl as [|x l Hx Hl IHl]; [contradiction|].
    apply in_app_or in Hin as [Hin | Hin]; [|apply IHl, Hin].
    destruct (Hx _ _ _ Hin) as [Hmd [rest ->]]. split; [exact Hmd|].
    exists (e ++ js "/" ++ rest). unfold path_join. rewrite <- !app_assoc. reflexivity.
Qed.

Lemma fold_left_add : forall (f : node -> nat) l acc,
  fold_left (fun count e => count + f e) l acc = (acc + list_sum (map f l))%nat.
Proof. intros f; induction l as [|x l IH]; intros acc; simpl; [lia | rewrite IH; lia]. Qed.

Lemma files_under_count : forall n dir,
  (List.length (files_under dir n) <= count_node n)%nat /\
  (md_only n = true -> List.length (files_under dir n) = count_node n).
Proof.
  induction n as [e c0 | e l Hl] using node_ind_nested; intros dir; simpl.
  - destruct (ends_with e (js ".md")); simpl; split; intros; try lia; discriminate.
  - induction Hl as [|x l Hx Hl IHl]; simpl; [split; intros; lia|].
    destruct (Hx (path_join dir e)) as [H1 H2]. destruct IHl as [H3 H4].
    rewrite length_app. split; [lia|].
    intros Hmd. apply andb_true_iff in Hmd as [Hmx Hml]. rewrite (H2 Hmx), (H4 Hml). reflexivity.
Qed.

(** ** Loading the documents *)

(** [readAllFiles] returns only paths ending in [.md], all below the
    directory it was given. *)
Theorem readAllFiles_md_paths (dir : jstr) (listing : option (list node)) (fp content : jstr) :
  In (fp, content) (readAllFiles dir listing) ->
  ends_with fp (js ".md") = true /\ exists rest, fp = dir ++ js "/" ++ rest.
Proof.
  destruct listing as [entries|]; simpl; [|intros []].
  intros Hin. apply in_flat_map in Hin as (n & _ & Hin). eapply files_under_paths, Hin.
Qed.

Lemma readAllFiles_md_paths_witness :
  In (js "/kb/a/x.md", js "{}") (readAllFiles (js "/kb") (Some [DirN (js "a") [FileN (js "x.md") (js "{}")]])) /\
  ends_with (js "/kb/a/x.md") (js ".md") = true /\
  exists rest, js "/kb/a/x.md" = js "/kb" ++ js "/" ++ rest.
Proof.
  assert (Hin : In (js "/kb/a/x.md", js "{}")
                   (readAllFiles (js "/kb") (Some [DirN (js "a") [FileN (js "x.md") (js "{}")]])))
    by (vm_compute; left; reflexivity).
  split; [exact Hin | apply (readAllFiles_md_paths _ _ _ _ Hin)].
Defined.

(** [readAllFiles] never returns more paths than [countFilesRecursive]
    counts files, and exactly as many when every file name ends in [.md]. *)
Theorem readAllFiles_count (dir : jstr) (listing : option (list node)) :
  (List.length (readAllFiles dir listing) <= countFilesRecursive listing)%nat /\
  (match listing with Some entries => forallb md_only entries = true | None => True end ->
   List.length (readAllFiles dir listing) = countFilesRecursive listing).
Proof.
  destruct listing as [entries|]; simpl; [|split; [lia | reflexivity]].
  rewrite fold_left_add. simpl.
  induction entries as [|x l IH]; simpl; [split; [lia | reflexivity]|].
  destruct (files_under_count x dir) as [H1 H2]. destruct IH as [H3 H4].
  rewrite length_app. split; [lia|].
  intros Hmd. apply andb_true_iff in Hmd as [Hmx Hml]. rewrite (H2 Hmx), (H4 Hml). reflexivity.
Qed.

Lemma readAllFiles_count_witness :
  forallb md_only [DirN (js "a") [FileN (js "x.md") []]; FileN (js "y.md") []] = true /\
  List.length (readAllFiles (js "/kb") (Some [DirN (js "a") [FileN (js "x.md") []]; FileN (js "y.md") []]))
  = countFilesRecursive (Some [DirN (js "a") [FileN (js "x.md") []]; FileN (js "y.md") []]).
Proof.
  assert (Hmd : forallb md_only [DirN (js "a") [FileN (js "x.md") []]; FileN (js "y.md") []] = true)
    by reflexivity.
  split; [exact Hmd | apply (proj2 (readAllFiles_count (js "/kb") _)), Hmd].
Defined.

(** ** Trimming and the front-matter scan *)

Definition head_not_ws (s : jstr) : Prop :=
  match s with [] => True | c :: _ => is_ws c = false end.

Lemma trim_start_head : forall s, head_not_ws (trim_start s).
Proof.
  induction s as [|c s IH]; simpl; [exact I|].
  destruct (is_ws c) eqn:Hc; [exact IH | exact Hc].
Qed.

Lemma trim_start_id : forall s, head_not_ws s -> trim_start s = s.
Proof. intros [|c s] H; simpl in *; [reflexivity | rewrite H; reflexivity]. Qed.

Lemma trim_start_snoc : forall l c, is_ws c = false -> trim_start (l ++ [c]) = trim_start l ++ [c].
Proof.
  induction l as [|x l IH]; intros c Hc; simpl; [rewrite Hc; reflexivity|].
  destruct (is_ws x); [apply IH, Hc | reflexivity].
Qed.

Lemma trim_head : forall s, head_not_ws (trim s).
Proof.
  intros s. unfold trim. pose proof (trim_start_head s) as Hh.
  destruct (trim_start s) as [|c x]; simpl; [exact I|].
  simpl in Hh. rewrite (trim_start_snoc _ _ Hh), rev_app_distr. exact Hh.
Qed.

Lemma trim_idem : forall s, trim (trim s) = trim s.
Proof.
  intros s. unfold trim at 1. rewrite (trim_start_id _ (trim_head s)).
  unfold trim. rewrite rev_involutive, (trim_start_id _ (trim_start_head _)). reflexivity.
Qed.

Lemma trim_nil : trim [] = [].
Proof. reflexivity. Qed.

(** The postcondition of the depth scan started at depth [d]: no prefix
    brings the depth to 0 and the scan gives -1, or the shortest prefix
    that does has length [k] and the scan gives [i + k]. *)
Definition brace_post (s : jstr) (i d r : Z) : Prop :=
  (r = (-1)%Z /\
   forall k, (1 <= k <= List.length s)%nat -> (0 < d + brace_balance (firstn k s))%Z) \/
  (exists k, (1 <= k <= List.length s)%nat /\ r = (i + Z.of_nat k)%Z /\
     (d + brace_balance (firstn k s) = 0)%Z /\
     forall k', (1 <= k' < k)%nat -> (0 < d + brace_balance (firstn k' s))%Z).

Lemma brace_post_step : forall c s i d r,
  (1 <= d + (if N.eqb c 123 then 1 else if N.eqb c 125 then -1 else 0))%Z ->
  brace_post s (i + 1) (d + (if N.eqb c 123 then 1 else if N.eqb c 125 then -1 else 0)) r ->
  brace_post (c :: s) i d r.
Proof.
  intros c s i d r Hd' [[Hr Hall] | (k & Hk & Hr & Hz & Hmin)].
  - left. split; [exact Hr|]. intros [|k] Hk; [lia|]. cbn [firstn brace_balance].
    destruct k as [|k]; [cbn [firstn brace_balance]; lia|].
    specialize (Hall (S k) ltac:(simpl in Hk; lia)). lia.
  - right. exists (S k). split; [simpl; lia|]. split; [rewrite Hr; lia|]. split.
    + cbn [firstn brace_balance]. lia.
    + intros [|k'] Hk'; [lia|]. cbn [firstn brace_balance].
      destruct k' as [|k']; [cbn [firstn brace_balance]; lia|].
      specialize (Hmin (S k') ltac:(lia)). lia.
Qed.

Lemma brace_end_spec : forall s i d, (1 <= d)%Z -> brace_post s i d (brace_end s i d).
Proof.
  induction s as [|c s IH]; intros i d Hd.
  - left. split; [reflexivity | intros k Hk; simpl in Hk; lia].
  - destruct (N.eqb c 123) eqn:E1, (N.eqb c 125) eqn:E2.
    + apply N.eqb_eq in E1, E2. congruence.
    + apply brace_post_step; rewrite E1; [lia|]. simpl brace_end. rewrite E1, E2. apply IH. lia.
    + simpl brace_end. rewrite E1, E2. destruct (Z.eqb_spec (d - 1) 0) as [Hz | Hnz].
      * right. exists 1%nat. split; [simpl; lia|]. split; [reflexivity|].
        split; [simpl; rewrite E1, E2; lia | intros; lia].
      * apply brace_post_step; rewrite E1, E2; [lia|].
        replace (d + -1)%Z with (d - 1)%Z by lia. apply IH. lia.
    + apply brace_post_step; rewrite E1, E2; [lia|]. simpl brace_end. rewrite E1, E2.
      replace (d + 0)%Z with d by lia. apply IH, Hd.
Qed.

Lemma slice_range : forall s b e,
  (0 <= b <= e)%Z -> (e <= Z.of_nat (List.length s))%Z ->
  slice s b e = firstn (Z.to_nat (e - b)) (skipn (Z.to_nat b) s).
Proof.
  intros s b e Hb He. unfold slice, rel_index.
  destruct (Z.ltb_spec b 0); [lia|]. destruct (Z.ltb_spec e 0); [lia|].
  rewrite Z.min_l by lia. rewrite Z.min_l by lia. reflexivity.
Qed.

(** [parseFrontJSON] always returns a body without leading or trailing
    white space; when the trimmed text does not start with ['{'] it
    returns [null] and the trimmed text. *)
Theorem parseFrontJSON_body_trimmed `{JSONImpl} (s0 : jstr) :
  let '(meta, body) := parseFrontJSON s0 in
  trim body = body /\
  (starts_with (trim s0) (js "{") = false -> meta = None /\ body = trim s0).
Proof.
  unfold parseFrontJSON. cbv zeta.
  destruct (starts_with (trim s0) (js "{")) eqn:Hs; simpl.
  - destruct (brace_end (trim s0) 0 0 <? 0)%Z; [split; [apply trim_idem | discriminate]|].
    destruct (JSON_parse _); (split; [apply trim_idem | discriminate]).
  - split; [apply trim_idem | auto].
Qed.

Lemma parseFrontJSON_body_trimmed_witness :
  starts_with (trim (js " # Title ")) (js "{") = false /\
  parseFrontJSON (js " # Title ") = (None, js "# Title").
Proof.
  assert (Hs : starts_with (trim (js " # Title ")) (js "{") = false) by reflexivity.
  split; [exact Hs|].
  pose proof (parseFrontJSON_body_trimmed (js " # Title ")) as P.
  destruct (parseFrontJSON (js " # Title ")) as [m b].
  destruct P as [_ P]. destruct (P Hs) as [-> ->]. reflexivity.
Defined.

(** When [parseFrontJSON] finds metadata, it is [JSON.parse] of the
    shortest prefix of the trimmed text (which starts with ['{']) whose
    braces balance, every brace counted, also one inside a JSON string;
    the body is the rest, trimmed. *)
Theorem parseFrontJSON_meta_prefix `{JSONImpl} (s0 : jstr) (meta : json) (body : jstr) :
  parseFrontJSON s0 = (Some meta, body) ->
  starts_with (trim s0) (js "{") = true /\
  exists k, (1 <= k <= List.length (trim s0))%nat /\
    JSON_parse (firstn k (trim s0)) = Some meta /\
    body = trim (skipn k (trim s0)) /\
    brace_balance (firstn k (trim s0)) = 0%Z /\
    (forall k', (1 <= k' < k)%nat -> (0 < brace_balance (firstn k' (trim s0)))%Z).
Proof.
  intros Hp. unfold parseFrontJSON in Hp. cbv zeta in Hp.
  destruct (trim s0) as [|c s'] eqn:Es; [discriminate|].
  destruct (starts_with (c :: s') (js "{")) eqn:Hs; cbn [negb] in Hp; [|discriminate].
  split; [reflexivity|].
  assert (Hc : c = 123%N).
  { simpl in Hs. apply andb_true_iff in Hs as [Hc _]. symmetry. apply N.eqb_eq, Hc. }
  subst c. change (brace_end (123%N :: s') 0 0) with (brace_end s' 1 1) in Hp.
  destruct (brace_end_spec s' 1 1 ltac:(lia)) as [[Hr _] | (k & Hk & Hr & Hz & Hmin)].
  - rewrite Hr in Hp. discriminate.
  - rewrite Hr in Hp.
    destruct (Z.ltb_spec (1 + Z.of_nat k) 0) as [Hneg|_]; [lia|].
    rewrite (slice_range (123%N :: s') 0 (1 + Z.of_nat k)) in Hp by (cbn [List.length]; lia).
    rewrite (slice_range (123%N :: s') (1 + Z.of_nat k)) in Hp by (cbn [List.length]; lia).
    replace (Z.to_nat (1 + Z.of_nat k - 0)) with (S k) in Hp by lia.
    replace (Z.to_nat (1 + Z.of_nat k)) with (S k) in Hp by lia.
    rewrite (firstn_all2 (skipn (S k) (123%N :: s'))) in Hp by (rewrite length_skipn; cbn [List.length]; lia).
    change (skipn (Z.to_nat 0) (123%N :: s')) with (123%N :: s') in Hp.
    destruct (JSON_parse (firstn (S k) (123%N :: s'))) as [m|] eqn:Hj; [|discriminate].
    injection Hp as -> <-. exists (S k). split; [simpl; lia|].
    split; [exact Hj|]. split; [reflexivity|]. split.
    + cbn [firstn brace_balance]. simpl N.eqb. cbv iota. lia.
    + intros [|k'] Hk'; [lia|]. cbn [firstn brace_balance]. simpl N.eqb. cbv iota.
      destruct k' as [|k']; [simpl; lia|].
      specialize (Hmin (S k') ltac:(lia)). lia.
Qed.

Lemma parseFrontJSON_meta_prefix_witness :
  parseFrontJSON (js "{} body") = (Some (JObj []), js "body") /\
  starts_with (trim (js "{} body")) (js "{") = true /\
  exists k, (1 <= k <= List.length (trim (js "{} body")))%nat /\
    JSON_parse (firstn k (trim (js "{} body"))) = Some (JObj []) /\
    js "body" = trim (skipn k (trim (js "{} body"))) /\
    brace_balance (firstn k (trim (js "{} body"))) = 0%Z /\
    (forall k', (1 <= k' < k)%nat -> (0 < brace_balance (firstn k' (trim (js "{} body"))))%Z).
Proof.
  assert (Hp : parseFrontJSON (js "{} body") = (Some (JObj []), js "body")) by reflexivity.
  split; [exact Hp | apply (parseFrontJSON_meta_prefix _ _ _ Hp)].
Defined.

(** ** Splitting on the separator *)

Lemma starts_with_refl : forall p, starts_with p p = true.
Proof. induction p as [|x p IH]; simpl; [reflexivity | rewrite N.eqb_refl, IH; reflexivity]. Qed.

Lemma no_SEP_before_spec : forall s k,
  no_SEP_before s k = true <-> forall j, (j < k)%nat -> starts_with (skipn j s) SEP = false.
Proof.
  intros s k. unfold no_SEP_before. rewrite forallb_forall. split.
  - intros H j Hj. specialize (H j ltac:(apply in_seq; lia)).
    destruct (starts_with _ _); [discriminate | reflexivity].
  - intros H j Hj. apply in_seq in Hj. rewrite (H j ltac:(lia)). reflexivity.
Qed.

Lemma split_acc_cons : forall f c s sep cur,
  split_acc (S f) (c :: s) sep cur =
  if starts_with (c :: s) sep then rev cur :: split_acc f (skipn (List.length sep) (c :: s)) sep []
  else split_acc f s sep (c :: cur).
Proof. reflexivity. Qed.

Lemma split_acc_none : forall sep s cur fuel,
  (forall j, (j < List.length s)%nat -> starts_with (skipn j s) sep = false) ->
  split_acc fuel s sep cur = [rev cur ++ s].
Proof.
  intros sep; induction s as [|c s IH]; intros cur fuel H.
  - destruct fuel; simpl; rewrite ?app_nil_r; reflexivity.
  - destruct fuel as [|fuel]; [reflexivity|]. rewrite split_acc_cons.
    pose proof (H 0%nat ltac:(simpl; lia)) as H0. change (skipn 0 (c :: s)) with (c :: s) in H0.
    rewrite H0, IH; [simpl; rewrite <- app_assoc; reflexivity|].
    intros j Hj. exact (H (S j) ltac:(simpl; lia)).
Qed.

Lemma split_acc_first : forall sep a b cur fuel, sep <> [] ->
  (forall j, (j < List.length a)%nat -> starts_with (skipn j (a ++ sep ++ b)) sep = false) ->
  (List.length a < fuel)%nat ->
  split_acc fuel (a ++ sep ++ b) sep cur =
    (rev cur ++ a) :: split_acc (fuel - List.length a - 1) b sep [].
Proof.
  intros sep; induction a as [|x a IH]; intros b cur fuel Hsep H Hf;
    (destruct fuel as [|f]; [simpl in Hf; lia|]).
  - destruct sep as [|y sep']; [congruence|].
    change ([] ++ (y :: sep') ++ b) with (y :: (sep' ++ b)). rewrite split_acc_cons.
    assert (Hs : starts_with (y :: sep' ++ b) (y :: sep') = true).
    { change (y :: sep' ++ b) with ((y :: sep') ++ b). apply starts_with_app_l, starts_with_refl. }
    rewrite Hs. change (y :: sep' ++ b) with ((y :: sep') ++ b).
    rewrite skipn_app, skipn_all, Nat.sub_diag. simpl. rewrite app_nil_r, Nat.sub_0_r. reflexivity.
  - change ((x :: a) ++ sep ++ b) with (x :: (a ++ sep ++ b)). rewrite split_acc_cons.
    assert (H0 : starts_with (x :: a ++ sep ++ b) sep = false) by exact (H 0%nat ltac:(simpl; lia)).
    rewrite H0, IH; [| exact Hsep | intros j Hj; exact (H (S j) ltac:(simpl; lia)) | simpl in Hf; lia].
    simpl. rewrite <- app_assoc. reflexivity.
Qed.

Lemma index_of_from_found : forall p s k j, (0 <= k)%Z ->
  starts_with (skipn j s) p = true -> (0 <= index_of_from s p k)%Z.
Proof.
  intros p; induction s as [|c s IH]; intros k j Hk Hj; cbn [index_of_from].
  - assert (Hn : starts_with [] p = true) by (destruct j; exact Hj).
    rewrite Hn; exact Hk.
  - destruct (starts_with (c :: s) p) eqn:E; [exact Hk|].
    destruct j as [|j]; [change (skipn 0 (c :: s)) with (c :: s) in Hj; congruence|].
    apply (IH (k + 1)%Z j); [lia | exact Hj].
Qed.

Lemma index_of_from_none : forall p s k,
  (forall j, (j <= List.length s)%nat -> starts_with (skipn j s) p = false) ->
  index_of_from s p k = (-1)%Z.
Proof.
  intros p; induction s as [|c s IH]; intros k H; cbn [index_of_from].
  - assert (H0 : starts_with [] p = false) by exact (H 0%nat ltac:(simpl; lia)).
    rewrite H0. reflexivity.
  - assert (H0 : starts_with (c :: s) p = false) by exact (H 0%nat ltac:(simpl; lia)).
    rewrite H0. apply IH. intros j Hj. exact (H (S j) ltac:(simpl; lia)).
Qed.

Lemma includes_SEP_false : forall s, no_SEP_before s (List.length s) = true -> includes s SEP = false.
Proof.
  intros s Hs. rewrite no_SEP_before_spec in Hs. unfold includes, index_of.
  rewrite index_of_from_none; [reflexivity|].
  intros j Hj. destruct (Nat.eq_dec j (List.length s)) as [->|Hne]; [|apply Hs; lia].
  rewrite skipn_all. reflexivity.
Qed.

Lemma includes_SEP_at : forall a b, includes (a ++ SEP ++ b) SEP = true.
Proof.
  intros a b. unfold includes, index_of. apply Z.leb_le.
  apply (index_of_from_found _ _ _ (List.length a)); [lia|].
  rewrite skipn_app, skipn_all, Nat.sub_diag. change (starts_with (SEP ++ b) SEP = true).
  apply starts_with_app_l, starts_with_refl.
Qed.

(** [splitENAR] on a body without the separator gives the trimmed body and
    an empty Arabic part; on a body with one separator, the trimmed text
    on each side; on a body with two or more separators, the trimmed text
    before the first and between the first two: the text after the second
    separator is dropped. *)
Theorem splitENAR_cases (body a b c : jstr) :
  (no_SEP_before body (List.length body) = true -> splitENAR body = (trim body, [])) /\
  (no_SEP_before (a ++ SEP ++ b) (List.length a) = true ->
   no_SEP_before b (List.length b) = true ->
   splitENAR (a ++ SEP ++ b) = (trim a, trim b)) /\
  (no_SEP_before (a ++ SEP ++ b ++ SEP ++ c) (List.length a) = true ->
   no_SEP_before (b ++ SEP ++ c) (List.length b) = true ->
   splitENAR (a ++ SEP ++ b ++ SEP ++ c) = (trim a, trim b)).
Proof.
  assert (HSEP : SEP <> []) by discriminate.
  split; [|split].
  - intros Hb. unfold splitENAR. rewrite (includes_SEP_false _ Hb). reflexivity.
  - intros Ha Hb. rewrite no_SEP_before_spec in Ha, Hb.
    unfold splitENAR. rewrite includes_SEP_at. unfold str_split.
    rewrite split_acc_first; [| exact HSEP | exact Ha | rewrite !length_app; unfold SEP; simpl; lia].
    rewrite split_acc_none by exact Hb. reflexivity.
  - intros Ha Hb. rewrite no_SEP_before_spec in Ha, Hb.
    unfold splitENAR. rewrite includes_SEP_at. unfold str_split.
    rewrite split_acc_first; [| exact HSEP | exact Ha | rewrite !length_app; unfold SEP; simpl; lia].
    rewrite split_acc_first; [reflexivity | exact HSEP | exact Hb |].
    rewrite !length_app. unfold SEP. simpl. lia.
Qed.

Lemma splitENAR_cases_witness :
  no_SEP_before (js "EN" ++ SEP ++ js "AR" ++ SEP ++ js "X") (List.length (js "EN")) = true /\
  no_SEP_before (js "AR" ++ SEP ++ js "X") (List.length (js "AR")) = true /\
  splitENAR (js "EN" ++ SEP ++ js "AR" ++ SEP ++ js "X") = (trim (js "EN"), trim (js "AR")).
Proof.
  assert (Ha : no_SEP_before (js "EN" ++ SEP ++ js "AR" ++ SEP ++ js "X") (List.length (js "EN")) = true)
    by reflexivity.
  assert (Hb : no_SEP_before (js "AR" ++ SEP ++ js "X") (List.length (js "AR")) = true)
    by reflexivity.
  split; [exact Ha|]. split; [exact Hb|].
  apply (proj2 (proj2 (splitENAR_cases [] (js "EN") (js "AR") (js "X"))) Ha Hb).
Defined.

(** ** Chunking *)

Lemma firstn_add_split {A} : forall a b (l : list A),
  firstn (a + b) l = firstn a l ++ firstn b (skipn a l).
Proof.
  induction a as [|a IH]; intros b l; [reflexivity|].
  destruct l as [|x l]; simpl; [rewrite firstn_nil; reflexivity | rewrite IH; reflexivity].
Qed.

Lemma firstn_min_length {A} : forall n (l : list A), firstn (Nat.min n (List.length l)) l = firstn n l.
Proof.
  intros n l. destruct (Nat.le_ge_cases n (List.length l)) as [H|H].
  - rewrite Nat.min_l by exact H. reflexivity.
  - rewrite Nat.min_r by exact H. rewrite firstn_all, firstn_all2 by exact H. reflexivity.
Qed.

(** [text.slice(b, b + w)] with non-negative [b] and [w]. *)
Lemma slice_nonneg : forall (t : jstr) b w, (0 <= b)%Z -> (0 <= w)%Z ->
  slice t b (b + w) = firstn (Z.to_nat w) (skipn (Z.to_nat b) t).
Proof.
  intros t b w Hb Hw. unfold slice, rel_index.
  rewrite (proj2 (Z.ltb_ge b 0)), (proj2 (Z.ltb_ge (b + w) 0)) by lia.
  set (len := Z.of_nat (List.length t)).
  destruct (Z_lt_le_dec b len) as [Hlt|Hge].
  - rewrite (Z.min_l b len) by lia.
    replace (Z.to_nat (Z.min (b + w) len - b))
      with (Nat.min (Z.to_nat w) (List.length (skipn (Z.to_nat b) t))).
    + apply firstn_min_length.
    + rewrite length_skipn. unfold len in *. lia.
  - rewrite (Z.min_r b len) by lia.
    rewrite (skipn_all2 (n:=Z.to_nat b) t) by (unfold len in *; lia).
    unfold len. rewrite Nat2Z.id, skipn_all, !firstn_nil. reflexivity.
Qed.

Lemma window_nat : forall (t : jstr) size overlap k, (0 <= overlap < size)%Z ->
  window t size (size - overlap) k =
  firstn (Z.to_nat size) (skipn (k * Z.to_nat (size - overlap)) t).
Proof.
  intros t size overlap k H. unfold window, window_start.
  rewrite slice_nonneg by nia. rewrite Z2Nat.inj_mul, Nat2Z.id by lia. reflexivity.
Qed.

(** Joining the windows [0 .. m] after dropping the overlap of all but the
    first gives the first [size + m * step] code units. *)
Lemma windows_rejoin : forall (t : jstr) s o m,
  firstn (s + o) t ++ List.concat (map (fun k => skipn o (firstn (s + o) (skipn (k * s) t))) (seq 1 m))
  = firstn (s + o + m * s) t.
Proof.
  intros t s o m. induction m as [|m IH].
  - simpl. rewrite app_nil_r, Nat.add_0_r. reflexivity.
  - rewrite seq_S, map_app, List.concat_app, app_assoc, IH. simpl. rewrite app_nil_r.
    rewrite skipn_firstn_comm, skipn_skipn.
    replace (s + o - o)%nat with s by lia.
    replace (o + (s + m * s))%nat with (s + o + m * s)%nat by lia.
    rewrite <- firstn_add_split. f_equal. lia.
Qed.

(** [chunk] with [0 <= overlap < size] returns chunks that are non-empty
    and at most [size] long, and the text is recovered by joining them
    after dropping the first [overlap] code units of every chunk but the
    first: the chunks cover the text, in order, with nothing lost. *)
Theorem chunk_rejoin (text : jstr) (size overlap : Z) :
  (0 <= overlap < size)%Z ->
  exists parts, chunk text size overlap = Some parts /\
    Forall (fun p => (0 < List.length p <= Z.to_nat size)%nat) parts /\
    match parts with
    | [] => text = []
    | p0 :: rest => p0 ++ List.concat (map (skipn (Z.to_nat overlap)) rest) = text
    end.
Proof.
  intros H. assert (Hlt : (overlap < size)%Z) by lia.
  set (n := window_count (Z.of_nat (List.length text)) (size - overlap)).
  exists (map (window text size (size - overlap)) (seq 0 n)). split; [|split].
  - unfold chunk. change 0%Z with (window_start (size - overlap) 0).
    rewrite (chunk_loop_windows text size overlap Hlt n 0 (S (List.length text)) [] eq_refl).
    + reflexivity.
    + pose proof (window_count_le_length text size overlap Hlt). unfold n. lia.
  - apply Forall_forall. intros p Hp. apply in_map_iff in Hp as [k [<- Hk]].
    apply in_seq in Hk. assert (Hk' : (k < n)%nat) by lia.
    apply (window_count_spec text size overlap Hlt) in Hk'. unfold window_start in Hk'.
    rewrite window_nat by exact H. rewrite length_firstn, length_skipn.
    assert (Hks : (k * Z.to_nat (size - overlap) < List.length text)%nat).
    { apply Nat2Z.inj_lt. rewrite Nat2Z.inj_mul, Z2Nat.id by lia. exact Hk'. }
    lia.
  - destruct n as [|m] eqn:En.
    + destruct text as [|c text']; [reflexivity|]. exfalso.
      assert (H0 : (window_start (size - overlap) 0 < Z.of_nat (List.length (c :: text')))%Z)
        by (unfold window_start; simpl; lia).
      apply (window_count_spec _ size overlap Hlt) in H0. fold n in H0. lia.
    + cbn [seq map]. rewrite map_map.
      rewrite (map_ext _ (fun k => skipn (Z.to_nat overlap)
                 (firstn (Z.to_nat (size - overlap) + Z.to_nat overlap)
                    (skipn (k * Z.to_nat (size - overlap)) text))))
        by (intros k; rewrite window_nat by exact H; f_equal; f_equal; lia).
      rewrite window_nat by exact H. simpl (0 * _)%nat. rewrite skipn_O.
      replace (Z.to_nat size) with (Z.to_nat (size - overlap) + Z.to_nat overlap)%nat by lia.
      rewrite windows_rejoin. apply firstn_all2.
      assert (Hout : ~ (window_start (size - overlap) (S m) < Z.of_nat (List.length text))%Z).
      { intros Hin. apply (window_count_spec text size overlap Hlt) in Hin. fold n in Hin. lia. }
      unfold window_start in Hout. apply Nat2Z.inj_le.
      rewrite !Nat2Z.inj_add, Nat2Z.inj_mul, !Z2Nat.id by lia. nia.
Qed.

Lemma chunk_rejoin_witness :
  (0 <= 1 < 3)%Z /\
  exists parts, chunk (js "abcdefg") 3 1 = Some parts /\
    Forall (fun p => (0 < List.length p <= Z.to_nat 3)%nat) parts /\
    match parts with
    | [] => js "abcdefg" = []
    | p0 :: rest => p0 ++ List.concat (map (skipn (Z.to_nat 1)) rest) = js "abcdefg"
    end.
Proof. split; [lia | apply chunk_rejoin; lia]. Defined.

Lemma chunk_loop_stuck : forall fuel (text : jstr) size overlap i out,
  text <> [] -> (size <= overlap)%Z -> (i <= 0)%Z ->
  chunk_loop fuel text size overlap i out = None.
Proof.
  induction fuel as [|f IH]; intros text size overlap i out Hne Hso Hi; simpl;
    (destruct (Z.ltb_spec i (Z.of_nat (List.length text))) as [_|Hge];
     [| destruct text; [congruence | simpl in Hge; lia]]).
  - reflexivity.
  - apply IH; [exact Hne | exact Hso | lia].
Qed.

(** [chunk] with [size <= overlap] on a non-empty text never finishes: its
    index never advances past [0], so the loop runs out of any fuel. *)
Theorem chunk_no_progress (text : jstr) (size overlap : Z) :
  text <> [] -> (size <= overlap)%Z ->
  forall fuel, chunk_loop fuel text size overlap 0 [] = None.
Proof. intros Hne Hso fuel. apply chunk_loop_stuck; [exact Hne | exact Hso | lia]. Qed.

Lemma chunk_no_progress_witness :
  js "abc" <> [] /\ (250 <= 250)%Z /\ chunk (js "abc") 250 250 = None.
Proof.
  split; [discriminate|]. split; [lia|].
  apply (chunk_no_progress (js "abc") 250 250); [discriminate | lia].
Defined.

(** ** Section extraction *)

(** [r] occurs in [s] as a contiguous piece. *)
Definition infix (r s : jstr) : Prop := exists u v, s = u ++ r ++ v.

Lemma infix_trans : forall a b c, infix a b -> infix b c -> infix a c.
Proof.
  intros a b c [u [v ->]] [u' [v' ->]]. exists (u' ++ u), (v ++ v').
  rewrite <- !app_assoc. reflexivity.
Qed.

Lemma infix_firstn_skipn : forall k j (s : jstr), infix (firstn k (skipn j s)) s.
Proof.
  intros k j s. exists (firstn j s), (skipn k (skipn j s)).
  rewrite firstn_skipn, firstn_skipn. reflexivity.
Qed.

Lemma infix_slice : forall s b e, infix (slice s b e) s.
Proof. intros s b e. apply infix_firstn_skipn. Qed.

Lemma trim_start_suffix : forall s, exists u, s = u ++ trim_start s.
Proof.
  induction s as [|c s [u Hu]]; [exists []; reflexivity|]. simpl.
  destruct (is_ws c); [exists (c :: u); simpl; rewrite <- Hu; reflexivity | exists []; reflexivity].
Qed.

Lemma infix_trim : forall s, infix (trim s) s.
Proof.
  intros s. destruct (trim_start_suffix s) as [u Hu].
  destruct (trim_start_suffix (rev (trim_start s))) as [w Hw].
  exists u, (rev w). unfold trim. rewrite Hu at 1. f_equal.
  rewrite <- (rev_involutive (trim_start s)) at 1. rewrite Hw at 1; rewrite rev_app_distr. reflexivity.
Qed.

Lemma infix_replace_leading_nl : forall s, infix (replace_leading_nl s) s.
Proof.
  intros s. unfold replace_leading_nl. destruct (last_nl_in_ws s 0 None) as [p|].
  - exists (firstn (S p) s), []. rewrite app_nil_r, firstn_skipn. reflexivity.
  - exists [], []. rewrite app_nil_r. reflexivity.
Qed.

Lemma skipn_length_app : forall (u x : jstr), skipn (List.length u) (u ++ x) = x.
Proof. induction u as [|c u IH]; intros x; [reflexivity | exact (IH x)]. Qed.

Lemma starts_with_split : forall s p, starts_with s p = true -> s = p ++ skipn (List.length p) s.
Proof.
  intros s p; revert s. induction p as [|x p IH]; intros s H; [reflexivity|].
  destruct s as [|y s]; [discriminate|]. simpl in H. apply andb_true_iff in H as [Hx Hs].
  apply N.eqb_eq in Hx. subst y. simpl. f_equal. apply IH, Hs.
Qed.

Lemma occ_starts : forall s p u v, s = u ++ p ++ v ->
  starts_with (skipn (List.length u) s) p = true /\ (List.length u + List.length p <= List.length s)%nat.
Proof.
  intros s p u v ->. rewrite skipn_length_app. split.
  - apply starts_with_app_l, starts_with_refl.
  - rewrite !length_app. lia.
Qed.

(** The search of [indexOf]: [-1] with no occurrence, or the first one. *)
Lemma index_of_from_spec : forall p s k, (0 <= k)%Z ->
  (index_of_from s p k = (-1)%Z /\
     forall j, (j <= List.length s)%nat -> starts_with (skipn j s) p = false) \/
  (exists n, index_of_from s p k = (k + Z.of_nat n)%Z /\ (n <= List.length s)%nat /\
     starts_with (skipn n s) p = true /\
     forall j, (j < n)%nat -> starts_with (skipn j s) p = false).
Proof.
  intros p; induction s as [|c s IH]; intros k Hk; cbn [index_of_from].
  - destruct (starts_with [] p) eqn:E.
    + right. exists 0%nat. split; [lia|]. split; [simpl; lia|]. split; [exact E | intros; lia].
    + left. split; [reflexivity|]. intros j Hj. destruct j; [exact E | simpl in Hj; lia].
  - destruct (starts_with (c :: s) p) eqn:E.
    + right. exists 0%nat. split; [lia|]. split; [simpl; lia|]. split; [exact E | intros; lia].
    + destruct (IH (k + 1)%Z ltac:(lia)) as [[Hr Hn] | [n [Hr [Hle [Hs Hb]]]]].
      * left. split; [exact Hr|]. intros [|j] Hj; [exact E | apply Hn; simpl in Hj; lia].
      * right. exists (S n). split; [rewrite Hr; lia|]. split; [simpl; lia|].
        split; [exact Hs|]. intros [|j] Hj; [exact E | apply Hb; lia].
Qed.

Lemma slice_to_end : forall (s : jstr) b, (0 <= b)%Z ->
  infix (slice s b (Z.of_nat (List.length s))) (skipn (Z.to_nat b) s).
Proof.
  intros s b Hb. unfold slice, rel_index. cbv zeta.
  rewrite (proj2 (Z.ltb_ge b 0)) by lia.
  destruct (Z_lt_le_dec b (Z.of_nat (List.length s))) as [Hlt|Hge].
  - rewrite (Z.min_l b) by lia. eexists [], _. rewrite app_nil_l. symmetry. apply firstn_skipn.
  - rewrite (Z.min_r b) by lia. rewrite Nat2Z.id, skipn_all, firstn_nil.
    exists [], (skipn (Z.to_nat b) s). reflexivity.
Qed.

Lemma slice_prefix : forall (s : jstr) n, (n <= List.length s)%nat ->
  slice s 0 (Z.of_nat n) = firstn n s.
Proof.
  intros s n Hn. unfold slice, rel_index. simpl (0 <? 0)%Z.
  rewrite (proj2 (Z.ltb_ge (Z.of_nat n) 0)) by lia.
  rewrite Z.min_l by lia. rewrite Z.min_l by lia. rewrite Z.sub_0_r, Nat2Z.id. reflexivity.
Qed.

Lemma no_occ_firstn : forall (s p : jstr) n, p <> [] ->
  (forall j, (j < n)%nat -> starts_with (skipn j s) p = false) ->
  forall u v, firstn n s <> u ++ p ++ v.
Proof.
  intros s p n Hp Hno u v E.
  assert (Hs : s = u ++ p ++ (v ++ skipn n s)).
  { rewrite <- (firstn_skipn n s) at 1. rewrite E, <- !app_assoc. reflexivity. }
  destruct (occ_starts _ _ _ _ Hs) as [Hst _].
  assert (Hlen : (List.length u + List.length p <= n)%nat).
  { pose proof (length_firstn n s) as L. rewrite E, !length_app in L. lia. }
  destruct p as [|x p]; [congruence|]. simpl in Hlen.
  rewrite (Hno (List.length u) ltac:(lia)) in Hst. discriminate.
Qed.

Lemma slice_0_600_length : forall t, (List.length (slice t 0 600) <= 600)%nat.
Proof.
  intros t. unfold slice, rel_index. cbv zeta.
  change (0 <? 0)%Z with false. change (600 <? 0)%Z with false. cbv iota.
  rewrite length_firstn. lia.
Qed.

(** [extractSection(md, title)] returns at most 600 code units; it returns
    [''] when [title] does not occur in [md]; otherwise its result is a
    contiguous piece of the text after the first occurrence of [title],
    and it never contains ['\n**'] (the start of the next bold heading). *)
Theorem extractSection_piece (md title : jstr) :
  (List.length (extractSection md title) <= 600)%nat /\
  ((forall u v, md <> u ++ title ++ v) -> extractSection md title = []) /\
  (forall pre post, md = pre ++ title ++ post ->
     (forall pre' post', md = pre' ++ title ++ post' -> (List.length pre <= List.length pre')%nat) ->
     infix (extractSection md title) post) /\
  (forall u v, extractSection md title <> u ++ (10%N :: js "**") ++ v).
Proof.
  set (p := (10%N :: js "**")).
  assert (Hsect : forall after, forall u v,
    (let next := index_of after p in
     if (0 <=? next)%Z then slice after 0 next else after) <> u ++ p ++ v).
  { intros after u v. cbv zeta. unfold index_of.
    destruct (index_of_from_spec p after 0 ltac:(lia)) as [[Hr Hn] | [n [Hr [Hle [_ Hb]]]]].
    - rewrite Hr. change (0 <=? -1)%Z with false. cbv iota. intros E.
      destruct (occ_starts _ _ _ _ E) as [Hst Hl].
      rewrite (Hn (List.length u) ltac:(simpl in Hl; lia)) in Hst. discriminate.
    - rewrite Hr. simpl (0 + Z.of_nat n)%Z. rewrite (proj2 (Z.leb_le 0 (Z.of_nat n))) by lia.
      rewrite slice_prefix by exact Hle. apply no_occ_firstn; [discriminate | exact Hb]. }
  assert (Hinf : forall section, infix (slice (replace_leading_nl (trim section)) 0 600) section).
  { intros section. eapply infix_trans; [apply infix_slice|].
    eapply infix_trans; [apply infix_replace_leading_nl | apply infix_trim]. }
  split; [|split; [|split]].
  - unfold extractSection. destruct (index_of md title <? 0)%Z;
      [simpl; lia | apply slice_0_600_length].
  - intros Hno. unfold extractSection, index_of.
    destruct (index_of_from_spec title md 0 ltac:(lia)) as [[Hr _] | [n [_ [Hle [Hs _]]]]].
    + rewrite Hr. reflexivity.
    + exfalso. apply (Hno (firstn n md) (skipn (List.length title) (skipn n md))).
      rewrite <- (starts_with_split _ _ Hs). symmetry. apply firstn_skipn.
  - intros pre post Hmd Hfirst. unfold extractSection, index_of.
    destruct (occ_starts _ _ _ _ Hmd) as [Hpre Hlpre].
    destruct (index_of_from_spec title md 0 ltac:(lia)) as [[_ Hn] | [n [Hr [Hle [Hs Hb]]]]].
    + rewrite (Hn (List.length pre) ltac:(lia)) in Hpre. discriminate.
    + assert (Hn_le : (n <= List.length pre)%nat).
      { destruct (Nat.le_gt_cases n (List.length pre)) as [H|H]; [exact H|].
        rewrite (Hb _ H) in Hpre. discriminate. }
      assert (Hpre_le : (List.length pre <= n)%nat).
      { pose proof (length_firstn n md) as L. rewrite Nat.min_l in L by exact Hle. rewrite <- L.
        apply (Hfirst _ (skipn (List.length title) (skipn n md))).
        rewrite <- (starts_with_split _ _ Hs). symmetry. apply firstn_skipn. }
      assert (En : n = List.length pre) by lia. subst n.
      rewrite Hr. simpl (0 + _)%Z. rewrite (proj2 (Z.ltb_ge _ 0)) by lia.
      assert (Hafter : infix (slice md (Z.of_nat (List.length pre) + Z.of_nat (List.length title))
                                 (Z.of_nat (List.length md))) post).
      { eapply infix_trans; [apply slice_to_end; lia|].
        rewrite <- Nat2Z.inj_add, Nat2Z.id, Hmd, app_assoc, <- (length_app pre title),
          skipn_length_app.
        exists [], []. rewrite app_nil_r. reflexivity. }
      eapply infix_trans; [apply Hinf|].
      destruct (Z.leb 0 _); [eapply infix_trans; [apply infix_slice|] |]; exact Hafter.
  - intros u v E. unfold extractSection in E. cbv zeta in E.
    destruct (index_of md title <? 0)%Z; [destruct u; discriminate|].
    match type of E with slice (replace_leading_nl (trim ?sec)) 0 600 = _ =>
      destruct (Hinf sec) as [u' [v' Hs]] end.
    apply (Hsect (slice md (index_of md title + Z.of_nat (List.length title)) (Z.of_nat (List.length md)))
             (u' ++ u) (v ++ v')).
    cbv zeta. etransitivity; [exact Hs|]. rewrite E. rewrite <- !app_assoc. reflexivity.
Qed.

Lemma extractSection_piece_witness :
  js "**Summary** hi" = [] ++ js "**Summary**" ++ js " hi" /\
  infix (extractSection (js "**Summary** hi") (js "**Summary**")) (js " hi").
Proof.
  split; [reflexivity|].
  apply (proj1 (proj2 (proj2 (extractSection_piece (js "**Summary** hi") (js "**Summary**"))))
           [] (js " hi")); [reflexivity | intros; simpl; lia].
Defined.

(** ** Cosine similarity *)

Local Open Scope R_scope.

Lemma cosine_loop_swap : forall a b d na nb,
  cosine_loop b a d nb na =
  let '(d', na', nb') := cosine_loop a b d na nb in (d', nb', na').
Proof.
  induction a as [|x a IH]; intros [|y b] d na nb; try reflexivity.
  simpl. rewrite (Rmult_comm y x). apply IH.
Qed.

Lemma cosine_loop_common : forall a b d na nb,
  cosine_loop a b d na nb =
  cosine_loop (firstn (List.length b) a) (firstn (List.length a) b) d na nb.
Proof.
  induction a as [|x a IH]; intros [|y b] d na nb; try reflexivity.
  simpl. apply IH.
Qed.

(** [cosine(a, b)] is symmetric in its two vectors. *)
Theorem cosine_symmetric (a b : vec) : cosine a b = cosine b a.
Proof.
  unfold cosine. rewrite (cosine_loop_swap a b 0 0 0).
  destruct (cosine_loop a b 0 0 0) as [[d na] nb]. rewrite (Rmult_comm (sqrt nb)). reflexivity.
Qed.

(** [cosine(a, b)] on vectors of different lengths only reads their common
    prefix: the extra components of the longer vector are ignored, also in
    its norm. *)
Theorem cosine_common_prefix (a b : vec) :
  cosine a b = cosine (firstn (List.length b) a) (firstn (List.length a) b).
Proof. unfold cosine. rewrite (cosine_loop_common a b). reflexivity. Qed.

Local Close Scope R_scope.

(** ** Search results *)

Local Open Scope R_scope.

Lemma insert_desc_perm : forall x l, Permutation (insert_desc x l) (x :: l).
Proof.
  intros x; induction l as [|y l IH]; simpl; [reflexivity|].
  destruct (Rlt_dec (sc_score x) (sc_score y)); [|reflexivity].
  rewrite IH. apply perm_swap.
Qed.

Lemma sort_desc_perm : forall l, Permutation (sort_desc l) l.
Proof.
  induction l as [|x l IH]; simpl; [reflexivity|].
  rewrite insert_desc_perm, IH. reflexivity.
Qed.

Definition score_ge (x y : Scored) : Prop := sc_score y <= sc_score x.

Lemma insert_desc_sorted : forall x l,
  StronglySorted score_ge l -> StronglySorted score_ge (insert_desc x l).
Proof.
  intros x; induction l as [|y l IH]; intros Hs; simpl.
  - repeat constructor.
  - apply StronglySorted_inv in Hs as [Hs Hy].
    destruct (Rlt_dec (sc_score x) (sc_score y)) as [Hlt|Hge].
    + constructor; [apply IH, Hs|].
      apply Forall_forall. intros z Hz.
      apply (Permutation_in _ (insert_desc_perm x l)) in Hz as [<- | Hz].
      * unfold score_ge. lra.
      * rewrite Forall_forall in Hy. apply Hy, Hz.
    + constructor; [constructor; assumption|].
      constructor; [unfold score_ge; lra|].
      rewrite Forall_forall in Hy |- *. intros z Hz. specialize (Hy z Hz).
      unfold score_ge in *. lra.
Qed.

Lemma sort_desc_sorted : forall l, StronglySorted score_ge (sort_desc l).
Proof. induction l as [|x l IH]; simpl; [constructor | apply insert_desc_sorted, IH]. Qed.

Lemma strongly_sorted_app : forall A (R : A -> A -> Prop) l1 l2 x y,
  StronglySorted R (l1 ++ l2) -> In x l1 -> In y l2 -> R x y.
Proof.
  intros A R; induction l1 as [|a l1 IH]; intros l2 x y Hs Hx Hy; [destruct Hx|].
  apply StronglySorted_inv in Hs as [Hs Ha]. destruct Hx as [<- | Hx].
  - rewrite Forall_forall in Ha. apply Ha, in_or_app. right. exact Hy.
  - exact (IH l2 x y Hs Hx Hy).
Qed.

(** The search scores every chunk of [kbChunks] once and keeps twenty of
    the best: the sorted list is a reordering of the scored chunks, and no
    chunk past the first twenty scores higher than a chunk among them. *)
Theorem search_top20_best (kb : KB) (qEmb : vec) :
  let l := sort_desc (scored_chunks kb qEmb) in
  Permutation l (scored_chunks kb qEmb) /\
  (forall x y, In x (firstn 20 l) -> In y (skipn 20 l) -> sc_score y <= sc_score x).
Proof.
  cbv zeta. split; [apply sort_desc_perm|].
  intros x y Hx Hy. apply (strongly_sorted_app _ score_ge (firstn 20 (sort_desc (scored_chunks kb qEmb)))
                             (skipn 20 (sort_desc (scored_chunks kb qEmb)))); [|exact Hx | exact Hy].
  rewrite firstn_skipn. apply sort_desc_sorted.
Qed.

Local Close Scope R_scope.

Lemma collect_items : forall files scored seen items it,
  In it (collect files scored seen items) ->
  In it items \/ exists f, find_file files (it_id it) = Some f /\ it = item_of f.
Proof.
  intros files; induction scored as [|sc scored IH]; intros seen items it Hit;
    cbn [collect] in Hit; [left; exact Hit|].
  assert (Hstep : forall it', In it' (match find_file files (ch_fileId (sc_chunk sc)) with
                                     | Some f => items ++ [item_of f] | None => items end) ->
                  In it' items \/ exists f, find_file files (it_id it') = Some f /\ it' = item_of f).
  { intros it' Hit'. destruct (find_file _ _) as [f|] eqn:Hf; [|left; exact Hit'].
    apply in_app_or in Hit' as [Hit' | [<- | []]]; [left; exact Hit'|].
    right. exists f. split; [|reflexivity]. simpl.
    rewrite (find_file_id _ _ _ Hf). exact Hf. }
  destruct (existsb _ seen); [exact (IH _ _ _ Hit)|].
  match type of Hit with context [(5 <=? ?n)%nat] => destruct (5 <=? n)%nat end;
    [apply Hstep, Hit|].
  destruct (IH _ _ _ Hit) as [H | H]; [apply Hstep, H | right; exact H].
Qed.

(** Every item the search returns is built from the first record of
    [kbFiles] with the item's id ([kbFiles.find]): its title,
    jurisdiction, version, as_of and tags are that record's [meta] fields,
    and its summaries are that record's summaries. *)
Theorem search_item_fields (kb : KB) (qEmb : vec) (it : Item) :
  In it (search_items kb qEmb) ->
  exists f, find_file (kbFiles kb) (it_id it) = Some f /\ it = item_of f.
Proof.
  intros Hit. unfold search_items in Hit.
  destruct (collect_items _ _ _ _ _ Hit) as [[] | H]. exact H.
Qed.

Lemma search_item_fields_witness :
  In (item_of (ex_file (js "a"))) (search_items ex_kb []) /\
  exists f, find_file (kbFiles ex_kb) (it_id (item_of (ex_file (js "a")))) = Some f /\
            item_of (ex_file (js "a")) = item_of f.
Proof.
  assert (Hin : In (item_of (ex_file (js "a"))) (search_items ex_kb []))
    by (rewrite ex_search_items; left; reflexivity).
  split; [exact Hin | apply (search_item_fields ex_kb [] _ Hin)].
Defined.

(** ** The history log *)

(** [logEvent] appends its entry to the history it reads and keeps the
    last 1000 entries: the history written is the suffix of
    [history ++ [entry]] of length [min 1000 (length history + 1)]. A
    missing or unreadable history file starts a new history with the entry
    alone; a history file holding JSON that is not an array makes
    [history.push] throw, and nothing is written. *)
Theorem logEvent_history `{JSONImpl} (stringify2 : json -> jstr) (file : option jstr)
    (now : R) (mobile : option json) (type_ summary : jstr) :
  let entry := log_entry now mobile type_ summary in
  (forall history, readJSON file (JArr []) = JArr history ->
     exists dropped kept, history ++ [entry] = dropped ++ kept /\
       List.length kept = Nat.min 1000 (S (List.length history)) /\
       logEvent stringify2 file now mobile type_ summary = LogWritten (stringify2 (JArr kept))) /\
  ((file = None \/ exists text, file = Some text /\ JSON_parse text = None) ->
     logEvent stringify2 file now mobile type_ summary = LogWritten (stringify2 (JArr [entry]))) /\
  ((forall history, readJSON file (JArr []) <> JArr history) ->
     logEvent stringify2 file now mobile type_ summary = LogThrows).
Proof.
  cbv zeta. split; [|split].
  - intros history Hr. unfold logEvent. rewrite Hr. cbv zeta.
    set (h1 := history ++ [log_entry now mobile type_ summary]).
    assert (Hl : List.length h1 = S (List.length history))
      by (unfold h1; rewrite length_app; simpl; lia).
    destruct (Nat.ltb_spec 1000 (List.length h1)) as [Hgt|Hle].
    + exists (firstn (List.length h1 - 1000) h1), (skipn (List.length h1 - 1000) h1).
      split; [symmetry; apply firstn_skipn|]. split; [|reflexivity].
      rewrite length_skipn. lia.
    + exists [], h1. split; [reflexivity|]. split; [lia | reflexivity].
  - intros Hf. unfold logEvent.
    assert (Hr : readJSON file (JArr []) = JArr []).
    { destruct Hf as [-> | (text & -> & Hp)]; [reflexivity|]. simpl. rewrite Hp. reflexivity. }
    rewrite Hr. reflexivity.
  - intros Hno. unfold logEvent.
    destruct (readJSON file (JArr [])) eqn:Hr; try reflexivity.
    exfalso. exact (Hno _ eq_refl).
Qed.

Lemma logEvent_history_witness :
  let entry := log_entry 0 None (js "chat") (js "Q") in
  let lg f := @logEvent files_json print_json f 0 None (js "chat") (js "Q") in
  (@readJSON files_json (Some (print_json (JArr null_history))) (JArr []) = JArr null_history /\
   exists dropped kept, null_history ++ [entry] = dropped ++ kept /\
     List.length kept = Nat.min 1000 (S (List.length null_history)) /\
     lg (Some (print_json (JArr null_history))) = LogWritten (print_json (JArr kept))) /\
  ((Some (js "oops") = None \/ exists text, Some (js "oops") = Some text /\
                                            @JSON_parse files_json text = None) /\
   lg (Some (js "oops")) = LogWritten (print_json (JArr [entry]))) /\
  ((forall history, @readJSON files_json (Some (js "{}")) (JArr []) <> JArr history) /\
   lg (Some (js "{}")) = LogThrows).
Proof.
  cbv zeta.
  assert (Hr : @readJSON files_json (Some (print_json (JArr null_history))) (JArr []) = JArr null_history)
    by (vm_compute; reflexivity).
  assert (Hu : Some (js "oops") = None \/ exists text, Some (js "oops") = Some text /\
                                                    @JSON_parse files_json text = None)
    by (right; exists (js "oops"); split; [reflexivity | vm_compute; reflexivity]).
  assert (Ho : forall history, @readJSON files_json (Some (js "{}")) (JArr []) <> JArr history)
    by (intros history; vm_compute; discriminate).
  split; [split; [exact Hr|] | split; [split; [exact Hu|] | split; [exact Ho|]]].
  - exact (proj1 (@logEvent_history files_json print_json (Some (print_json (JArr null_history)))
                    0 None (js "chat") (js "Q")) null_history Hr).
  - exact (proj1 (proj2 (@logEvent_history files_json print_json (Some (js "oops"))
                           0 None (js "chat") (js "Q"))) Hu).
  - exact (proj2 (proj2 (@logEvent_history files_json print_json (Some (js "{}"))
                           0 None (js "chat") (js "Q"))) Ho).
Defined.

(** ** The admin rate limiter *)

(** [adminRateHits.get(ip) || []] *)
Definition hits_of (m : HitStore) (ip : jstr) : list Z :=
  match m ip with Some h => h | None => [] end.

Lemma req_times_app : forall ip evs evs',
  req_times ip (evs ++ evs') = req_times ip evs ++ req_times ip evs'.
Proof.
  intros ip; induction evs as [|[ip' key t | c] evs IH]; intros evs'; simpl; [reflexivity| |exact (IH evs')].
  destruct (jeq ip' ip); simpl; rewrite IH; reflexivity.
Qed.

Lemma filter_filter_weaker : forall A (f g : A -> bool) l,
  (forall x, f x = true -> g x = true) -> filter f (filter g l) = filter f l.
Proof.
  intros A f g; induction l as [|x l IH]; intros Hfg; simpl; [reflexivity|].
  destruct (g x) eqn:Hg; simpl.
  - destruct (f x); rewrite IH by exact Hfg; reflexivity.
  - destruct (f x) eqn:Hf; [rewrite (Hfg x Hf) in Hg; discriminate | apply IH, Hfg].
Qed.

(** Whatever the order of the events, as long as none is later than [t],
    the hits the store keeps for [ip] that are still in the window
    ending at [t] are exactly the requests of [ip] in that window. *)
Lemma admin_run_hits : forall K t evs,
  forallb (fun e => (event_time e <=? t)%Z) evs = true -> forall ip,
  filter (fun ts => (t - adminRateLimitWindowMs <? ts)%Z) (hits_of (admin_run K no_hits evs) ip)
  = filter (fun ts => (t - adminRateLimitWindowMs <? ts)%Z) (req_times ip evs).
Proof.
  intros K t evs. induction evs as [|e evs IH] using rev_ind; intros Ht ip; [reflexivity|].
  rewrite forallb_app in Ht. apply andb_true_iff in Ht as [Hevs He].
  simpl in He. rewrite andb_true_r in He. apply Z.leb_le in He.
  specialize (IH Hevs ip).
  unfold admin_run in *. rewrite fold_left_app. cbn [fold_left].
  set (m := fold_left (fun m e => fst (admin_step K m e)) evs no_hits) in *.
  rewrite req_times_app.
  destruct e as [ip' key te | c]; simpl in He.
  - unfold admin_step, adminRateLimiter. cbn [fst]. unfold hits_of, store_set.
    cbn [req_times]. destruct (jeq ip ip') eqn:E.
    + apply jeq_spec in E. subst ip'. rewrite jeq_refl.
      rewrite filter_app, filter_filter_weaker.
      * unfold hits_of in IH. rewrite IH, filter_app. reflexivity.
      * intros x Hx. apply Z.ltb_lt in Hx. apply Z.ltb_lt. lia.
    + assert (E' : jeq ip' ip = false).
      { destruct (jeq ip' ip) eqn:E2; [|reflexivity].
        apply jeq_spec in E2. subst. rewrite jeq_refl in E. discriminate. }
      rewrite E', app_nil_r. exact IH.
  - cbn [admin_step fst req_times]. rewrite app_nil_r. rewrite <- IH.
    unfold hits_of, adminCleanup.
    destruct (m ip) as [h|]; [|reflexivity].
    assert (Hkeep : filter (fun ts => (t - adminRateLimitWindowMs <? ts)%Z)
                      (filter (fun ts => (c - ts <=? adminRateLimitWindowMs)%Z) h)
                    = filter (fun ts => (t - adminRateLimitWindowMs <? ts)%Z) h).
    { apply filter_filter_weaker. intros x Hx. apply Z.ltb_lt in Hx. apply Z.leb_le. lia. }
    destruct (filter (fun ts => (c - ts <=? adminRateLimitWindowMs)%Z) h) eqn:F;
      rewrite <- Hkeep; reflexivity.
Qed.

(** Admin requests go through the rate limiter, then the key check. A
    request from [ip] at time [t], after any run of requests and cleanup
    ticks none of which is later than [t], is refused with 429 exactly when
    [ip] made at least 10 requests in the window [(t - 60000, t]] before it,
    whatever their outcome (refused, forbidden or passed); otherwise it is
    passed on exactly when its key equals [ADMIN_KEY], and refused with 403
    when not. The cleanup ticks never change a response. *)
Theorem admin_limit_counts (K : jstr) (evs : list AdminEvent) (ip : jstr) (key : option jstr) (t : Z) :
  forallb (fun e => (event_time e <=? t)%Z) evs = true ->
  snd (admin_step K (admin_run K no_hits evs) (AdminReq ip key t)) =
  Some (if (adminRateLimitMax <=?
            List.length (filter (fun ts => (t - adminRateLimitWindowMs <? ts)%Z) (req_times ip evs)))%nat
        then Resp429 else if ensureAdminKey K key then RespNext else Resp403).
Proof.
  intros Ht. pose proof (admin_run_hits K t evs Ht ip) as Hh.
  unfold admin_step, adminRateLimiter. cbn [snd].
  unfold hits_of in Hh. rewrite Hh, length_app. cbn [List.length].
  rewrite Nat.add_1_r. reflexivity.
Qed.

Lemma admin_limit_counts_witness :
  forallb (fun e => (event_time e <=? 1000)%Z) (repeat (AdminReq (js "a") None 0) 10) = true /\
  snd (admin_step (js "4868") (admin_run (js "4868") no_hits (repeat (AdminReq (js "a") None 0) 10))
         (AdminReq (js "a") (Some (js "4868")) 1000)) =
  Some (if (adminRateLimitMax <=?
            List.length (filter (fun ts => (1000 - adminRateLimitWindowMs <? ts)%Z)
                           (req_times (js "a") (repeat (AdminReq (js "a") None 0) 10))))%nat
        then Resp429 else if ensureAdminKey (js "4868") (Some (js "4868")) then RespNext else Resp403).
Proof.
  assert (Ht : forallb (fun e => (event_time e <=? 1000)%Z) (repeat (AdminReq (js "a") None 0) 10) = true)
    by reflexivity.
  split; [exact Ht | exact (admin_limit_counts (js "4868") _ (js "a") (Some (js "4868")) 1000 Ht)].
Defined.

(** ** Chunk records of a rebuild *)

Lemma in_firstn_in {A} : forall n (l : list A) x, In x (firstn n l) -> In x l.
Proof.
  intros n l x Hx. rewrite <- (firstn_skipn n l). apply in_or_app. left. exact Hx.
Qed.

Lemma in_firstn_succ {A} : forall n (l : list A) x, In x (firstn n l) -> In x (firstn (S n) l).
Proof.
  intros n l x Hx. rewrite <- Nat.add_1_r, firstn_add_split. apply in_or_app. left. exact Hx.
Qed.

Section ChunkFiles.
Context `{JSONImpl}.

Lemma chunk_records_fileId : forall id meta parts embeds idx c,
  In c (chunk_records id meta parts embeds idx) -> ch_fileId c = id.
Proof.
  intros id meta parts; induction embeds as [|e embeds IH]; intros idx c Hc; [destruct Hc|].
  destruct Hc as [<- | Hc]; [reflexivity | exact (IH _ _ Hc)].
Qed.

Lemma doc_chunks_fileId : forall d e c, In c (doc_chunks d e) -> ch_fileId c = fr_id (doc_rec d).
Proof.
  intros [[fp m] body] e c Hc. unfold doc_chunks in Hc. apply chunk_records_fileId in Hc.
  rewrite Hc. unfold doc_pending, doc_rec, pending_of. reflexivity.
Qed.

Lemma zip_chunks_prefix_from : forall ds es k c,
  In c (List.concat (firstn k (zip_chunks ds es))) ->
  exists d, In d (firstn k ds) /\ ch_fileId c = fr_id (doc_rec d).
Proof.
  induction ds as [|d ds IH]; intros [|e es] [|k] c Hc; simpl in Hc; try contradiction.
  apply in_app_or in Hc as [Hc | Hc].
  - exists d. split; [left; reflexivity | apply doc_chunks_fileId with e; exact Hc].
  - destruct (IH es k c Hc) as (d' & Hd' & Hid). exists d'. split; [right; exact Hd' | exact Hid].
Qed.

Lemma zip_chunks_from : forall ds es c,
  In c (List.concat (zip_chunks ds es)) -> exists d, In d ds /\ ch_fileId c = fr_id (doc_rec d).
Proof.
  intros ds es c Hc.
  rewrite <- (firstn_all2 (n := List.length ds) (zip_chunks ds es)) in Hc.
  - destruct (zip_chunks_prefix_from ds es _ c Hc) as (d & Hd & Hid).
    exists d. split; [exact (in_firstn_in _ _ _ Hd) | exact Hid].
  - clear Hc. revert es. induction ds as [|d ds IH]; intros [|e es]; simpl; try lia.
    specialize (IH es). lia.
Qed.

End ChunkFiles.

(** In a rebuild that runs alone and whose embedding calls all succeed,
    every state a concurrent reader can observe at a suspension point, and
    the final state, give each chunk record a file record with the chunk's
    [fileId] in [kbFiles]: the record of a file is pushed before its chunks. *)
Theorem rebuild_chunks_have_files `{JSONImpl} (kb0 : KB) (files : list (jstr * jstr))
    (es : list (list vec)) :
  List.length es = List.length (indexed files) ->
  let '(obs, (kbF, t)) := rebuild kb0 files (map Some es) in
  forall kb, In kb (kbF :: obs) -> forall c, In c (kbChunks kb) ->
    exists f, In f (kbFiles kb) /\ fr_id f = ch_fileId c.
Proof.
  intros Hlen. pose proof (rebuild_success kb0 files es Hlen) as Hs.
  destruct (rebuild kb0 files (map Some es)) as [obs [kbF t]].
  destruct Hs as (_ & -> & Hobs & Hnth).
  intros kb [<- | Hin] c Hc.
  - destruct (zip_chunks_from _ _ _ Hc) as (d & Hd & Hid).
    exists (doc_rec d). split; [apply in_map, Hd | symmetry; exact Hid].
  - apply In_nth_error in Hin as [k Hk].
    assert (Hlt : (k < List.length obs)%nat) by (apply nth_error_Some; congruence).
    rewrite Hnth in Hk by lia. injection Hk as <-.
    destruct (zip_chunks_prefix_from _ _ _ _ Hc) as (d & Hd & Hid).
    exists (doc_rec d). split; [apply in_map, in_firstn_succ, Hd | symmetry; exact Hid].
Qed.

Lemma rebuild_chunks_have_files_witness :
  List.length [[[]] : list vec] = List.length (indexed one_file) /\
  let '(obs, (kbF, t)) := rebuild empty_kb one_file (map Some [[[]]]) in
  forall kb, In kb (kbF :: obs) -> forall c, In c (kbChunks kb) ->
    exists f, In f (kbFiles kb) /\ fr_id f = ch_fileId c.
Proof.
  split; [reflexivity|].
  apply (rebuild_chunks_have_files empty_kb one_file [[[]]]). reflexivity.
Defined.

(** ** The history route *)

Lemma filter_opt_in : forall p l r, filter_opt p l = Some r ->
  forall x, In x r -> In x l /\ p x = Some true.
Proof.
  intros p; induction l as [|y l IH]; intros r Hr x Hx; simpl in Hr.
  - injection Hr as <-. destruct Hx.
  - destruct (p y) as [b|] eqn:Hp; [|discriminate].
    destruct (filter_opt p l) as [r'|] eqn:Hr'; [|discriminate]. injection Hr as <-.
    destruct b; [destruct Hx as [<- | Hx]; [split; [left; reflexivity | exact Hp]|] |];
      destruct (IH r' eq_refl x Hx) as [Hin Hpx]; (split; [right; exact Hin | exact Hpx]).
Qed.

Lemma filter_opt_all : forall l, filter_opt (history_match []) l = Some l.
Proof. induction l as [|x l IH]; simpl; [reflexivity | rewrite IH; reflexivity]. Qed.

(** [GET /api/history] answers at most 50 entries, all taken from the
    history file. With a non-empty [mobile] every entry answered has that
    [mobile]; with an empty or absent one the filter keeps every entry, of
    every user, and the answer holds [min 50 n] of the [n] entries. This
    holds whatever order the sort leaves the entries in. *)
Theorem history_route_items `{JSONImpl} (sort_ts : list json -> option (list json))
    (file : option jstr) (mobile : jstr) (items : list json) :
  (forall l l', sort_ts l = Some l' -> Permutation l' l) ->
  history_route sort_ts file mobile = Some items ->
  (List.length items <= 50)%nat /\
  exists hs, readJSON file (JArr []) = JArr hs /\
    (forall h, In h items -> In h hs /\ (mobile <> [] -> get (js "mobile") h = Some (JStr mobile))) /\
    (mobile = [] -> List.length items = Nat.min 50 (List.length hs)).
Proof.
  intros Hsort Hr. unfold history_route in Hr.
  destruct (readJSON file (JArr [])) as [| | | |hs|] eqn:Hf; try discriminate.
  destruct (filter_opt (history_match mobile) hs) as [fl|] eqn:Hfl; [|discriminate].
  destruct (sort_ts fl) as [sl|] eqn:Hsl; [|discriminate].
  assert (Ei : items = firstn 50 sl) by congruence. subst items.
  pose proof (Hsort _ _ Hsl) as Hperm.
  split; [rewrite length_firstn; lia|]. exists hs. split; [reflexivity|]. split.
  - intros h Hh. apply in_firstn_in in Hh.
    apply (Permutation_in _ Hperm) in Hh.
    destruct (filter_opt_in _ _ _ Hfl h Hh) as [Hin Hm]. split; [exact Hin|].
    intros Hne. destruct mobile as [|c mobile']; [congruence|].
    assert (Hm' : match get (js "mobile") h with
                  | Some (JStr m) => jeq m (c :: mobile')
                  | _ => false
                  end = true)
      by (destruct h; cbn [history_match] in Hm; first [discriminate | congruence]).
    destruct (get (js "mobile") h) as [[| | | m | |]|]; try discriminate.
    apply jeq_spec in Hm'. subst m. reflexivity.
  - intros ->. rewrite filter_opt_all in Hfl. injection Hfl as <-.
    rewrite length_firstn, (Permutation_length Hperm). reflexivity.
Qed.

Lemma history_route_items_witness :
  let file := Some (print_json (JArr hist_60)) in
  let hr := @history_route files_json (fun l0 => Some l0) file in
  (forall l l', (fun l0 : list json => Some l0) l = Some l' -> Permutation l' l) /\
  hr (js "0500") = Some (repeat (hist_entry (js "0500")) 50) /\
  hr [] = Some (firstn 50 hist_60) /\
  ((List.length (repeat (hist_entry (js "0500")) 50) <= 50)%nat /\
   exists hs, @readJSON files_json file (JArr []) = JArr hs /\
     (forall h, In h (repeat (hist_entry (js "0500")) 50) ->
        In h hs /\ (js "0500" <> [] -> get (js "mobile") h = Some (JStr (js "0500")))) /\
     (js "0500" = [] -> List.length (repeat (hist_entry (js "0500")) 50) = Nat.min 50 (List.length hs))) /\
  ((List.length (firstn 50 hist_60) <= 50)%nat /\
   exists hs, @readJSON files_json file (JArr []) = JArr hs /\
     (forall h, In h (firstn 50 hist_60) ->
        In h hs /\ (@nil N <> [] -> get (js "mobile") h = Some (JStr []))) /\
     (@nil N = [] -> List.length (firstn 50 hist_60) = Nat.min 50 (List.length hs))).
Proof.
  cbv zeta.
  assert (Hs : forall l l', (fun l0 : list json => Some l0) l = Some l' -> Permutation l' l)
    by (intros l l' E; injection E as <-; reflexivity).
  assert (H1 : @history_route files_json (fun l0 => Some l0) (Some (print_json (JArr hist_60))) (js "0500")
               = Some (repeat (hist_entry (js "0500")) 50)) by (vm_compute; reflexivity).
  assert (H2 : @history_route files_json (fun l0 => Some l0) (Some (print_json (JArr hist_60))) []
               = Some (firstn 50 hist_60)) by (vm_compute; reflexivity).
  split; [exact Hs|]. split; [exact H1|]. split; [exact H2|]. split.
  - exact (@history_route_items files_json (fun l0 => Some l0) (Some (print_json (JArr hist_60)))
             (js "0500") _ Hs H1).
  - exact (@history_route_items files_json (fun l0 => Some l0) (Some (print_json (JArr hist_60)))
             [] _ Hs H2).
Defined.

(** ** The profile route *)














